(** * CulinaryVision: the instruction annotator, the countdown timer,
      the AI service wrappers and the view-state machine

    A shallow embedding of the TypeScript sources
      - [components/RecipeCard.tsx]   ([renderInstructionText]),
      - [components/TimerOverlay.tsx] (the countdown state),
      - [services/geminiService.ts]   (the two service functions),
      - [App.tsx] and [types.ts]      (the handlers and [LoadingState]).

    Conventions.  A JavaScript string is the list of its UTF-16 code units
    ([N]); positions are [nat] indices into that list.  A JavaScript
    number is a double: the durations computed from the text are values
    of [JS.number] (a whole double, an infinity or NaN, with the rounding
    of the arithmetic written out), the time left of the countdown is the
    [Z] of a whole, finite double, decremented as doubles are, and the
    serving count, which moves by one per click from 1, is a [Z]. *)

From Stdlib Require Import List NArith ZArith Bool Arith Lia String Ascii Sorted.
Import ListNotations.

Set Implicit Arguments.

(* ================================================================== *)
(** * JavaScript strings *)
(* ================================================================== *)

Module JS.

Definition jsstring := list N.

(** A Rocq string literal as a JavaScript string (Latin-1 code units). *)
Definition str (s : string) : jsstring :=
  map N_of_ascii (list_ascii_of_string s).

(** [text.substring(a, b)] for [a <= b]; like the original it stops at
    the end of the text. *)
Definition substring (text : jsstring) (a b : nat) : jsstring :=
  firstn (b - a) (skipn a text).

(** [text.substring(a)]. *)
Definition substring_from (text : jsstring) (a : nat) : jsstring :=
  skipn a text.

(** ** Character classes of the regular-expression engine *)

Definition in_range (lo hi c : N) : bool := ((lo <=? c) && (c <=? hi))%N.

(** [\d] *)
Definition is_digit (c : N) : bool := in_range 48 57 c.

(** [\w]: letters, digits and the underscore. *)
Definition is_word_char (c : N) : bool :=
  in_range 97 122 c || in_range 65 90 c || is_digit c || (c =? 95)%N.

(** [\s], and the characters removed by [String.prototype.trim]:
    WhiteSpace and LineTerminator of the language definition. *)
Definition is_space (c : N) : bool :=
  in_range 9 13 c || (c =? 32)%N || (c =? 160)%N || (c =? 5760)%N
  || in_range 8192 8202 c || (c =? 8232)%N || (c =? 8233)%N
  || (c =? 8239)%N || (c =? 8287)%N || (c =? 12288)%N || (c =? 65279)%N.

(** Canonicalize of a case-insensitive pattern without the [u] flag:
    upper-casing.  A code unit of 128 or more is never mapped below 128,
    so for comparison with the ASCII letters of a pattern only the ASCII
    letters matter, and the others are left as they are. *)
Definition canonicalize (c : N) : N :=
  if in_range 97 122 c then (c - 32)%N else c.

(** [String.prototype.toLowerCase] on the letters the program inspects
    (the regular expression only lets ASCII letters through). *)
Definition toLowerCase_unit (c : N) : N :=
  if in_range 65 90 c then (c + 32)%N else c.

Definition toLowerCase (s : jsstring) : jsstring := map toLowerCase_unit s.

Fixpoint startsWith (s prefix : jsstring) : bool :=
  match prefix, s with
  | [], _ => true
  | p :: prefix', c :: s' => (c =? p)%N && startsWith s' prefix'
  | _ :: _, [] => false
  end.

(** [s.split(sep)[0]] for a one-unit separator: the text before the
    first occurrence of the separator. *)
Fixpoint split_first (sep : N) (s : jsstring) : jsstring :=
  match s with
  | [] => []
  | c :: s' => if (c =? sep)%N then [] else c :: split_first sep s'
  end.

(** [String.prototype.trim]. *)
Fixpoint trimStart (s : jsstring) : jsstring :=
  match s with
  | c :: s' => if is_space c then trimStart s' else s
  | [] => []
  end.

Definition trimEnd (s : jsstring) : jsstring := rev (trimStart (rev s)).

Definition trim (s : jsstring) : jsstring := trimEnd (trimStart s).

(** Truthiness of a string: the empty string is the only falsy one. *)
Definition truthy (s : jsstring) : bool :=
  match s with [] => false | _ :: _ => true end.

(** ** Numbers

    The numbers the program computes from text are whole: [Num z] is the
    double whose value is the integer [z] (the two zeros are not told
    apart: they compare alike and neither is greater than 0).  Doubles
    carry 53 significant bits, so every integer up to 2^53 in magnitude
    is a double, and beyond that only the multiples of the unit in the
    last place are. *)
Inductive number : Type :=
| NaN
| Num (z : Z)
| Infinity
| NegInfinity.

Definition two53 : Z := 2 ^ 53.

(** The double nearest to a natural number [a], ties going to the even
    significand: above 2^53 the number is cut to its 53 leading bits,
    [q], and the bits cut off, [r], decide between [q] and [q + 1]. *)
Definition round53 (a : Z) : Z :=
  if (a <=? two53)%Z then a
  else
    let e := (Z.log2 a - 52)%Z in
    let q := (a / 2 ^ e)%Z in
    let r := (a mod 2 ^ e)%Z in
    let half := (2 ^ (e - 1))%Z in
    let q' :=
      if (r <? half)%Z then q
      else if (half <? r)%Z then (q + 1)%Z
      else if Z.even q then q else (q + 1)%Z in
    (q' * 2 ^ e)%Z.

(** The number an integer is rounded to: the result of an arithmetic
    operation whose exact value is [z].  What rounds to 2^1024 or more
    is infinite. *)
Definition double_of (z : Z) : number :=
  let r := round53 (Z.abs z) in
  if (2 ^ 1024 <=? r)%Z
  then (if (z <? 0)%Z then NegInfinity else Infinity)
  else Num (Z.sgn z * r).

(** The integers that are doubles. *)
Definition is_double (z : Z) : bool :=
  match double_of z with
  | Num r => (r =? z)%Z
  | _ => false
  end.

(** [a * b] *)
Definition number_mul (a b : number) : number :=
  match a, b with
  | NaN, _ | _, NaN => NaN
  | Num x, Num y => double_of (x * y)
  | Num x, Infinity | Infinity, Num x =>
      if (x =? 0)%Z then NaN else if (0 <? x)%Z then Infinity else NegInfinity
  | Num x, NegInfinity | NegInfinity, Num x =>
      if (x =? 0)%Z then NaN else if (0 <? x)%Z then NegInfinity else Infinity
  | Infinity, Infinity | NegInfinity, NegInfinity => Infinity
  | Infinity, NegInfinity | NegInfinity, Infinity => NegInfinity
  end.

(** [a > b] *)
Definition number_gtb (a b : number) : bool :=
  match a, b with
  | NaN, _ | _, NaN => false
  | Num x, Num y => (y <? x)%Z
  | Num _, Infinity => false
  | Num _, NegInfinity => true
  | Infinity, Infinity => false
  | Infinity, _ => true
  | NegInfinity, _ => false
  end.

(** [t - 1] for the whole number [t] held in a double: the difference is
    rounded like every result.  An integer that is not a double stands
    for no number of the program; there the difference is left exact. *)
Definition minus_one (t : Z) : Z :=
  if is_double t
  then match double_of (t - 1) with Num r => r | _ => (t - 1)%Z end
  else (t - 1)%Z.

(** ** [parseInt(s, 10)]

    Leading white space is skipped, an optional sign is read, then the
    longest prefix of decimal digits, whose value is rounded to a double
    (NaN when no digit is found).  The language lets an implementation
    round from the first 20 significant digits only; on at most 20
    digits, and in the engines that read all the digits, the result is
    the nearest double. *)

Definition digit_value (c : N) : Z := Z.of_N (c - 48)%N.

Fixpoint digits_prefix (s : jsstring) : jsstring :=
  match s with
  | c :: s' => if is_digit c then c :: digits_prefix s' else []
  | [] => []
  end.

Definition decimal (ds : jsstring) : Z :=
  fold_left (fun acc c => (10 * acc + digit_value c)%Z) ds 0%Z.

Definition parseInt10 (s : jsstring) : number :=
  let s1 := trimStart s in
  let '(sign, s2) :=
    match s1 with
    | 45%N :: r => ((-1)%Z, r)
    | 43%N :: r => (1%Z, r)
    | _ => (1%Z, s1)
    end in
  match digits_prefix s2 with
  | [] => NaN
  | ds => double_of (sign * decimal ds)
  end.

End JS.

(* ================================================================== *)
(** * The backtracking regular-expression matcher *)
(* ================================================================== *)

Module Regex.
Import JS.

(** The atoms that consume one code unit. *)
Inductive char_class : Type :=
| Lit (c : N)      (* a pattern character, compared under flag [i] *)
| Digit            (* \d *)
| Space.           (* \s *)

Definition class_matches (cls : char_class) (ch : N) : bool :=
  match cls with
  | Lit c => (canonicalize ch =? canonicalize c)%N
  | Digit => is_digit ch
  | Space => is_space ch
  end.

Inductive regex : Type :=
| REmpty                          (* the empty pattern *)
| RSet (cls : char_class)
| RWordB                          (* \b *)
| RSeq (r1 r2 : regex)
| RAlt (r1 r2 : regex)            (* r1|r2, r1 tried first *)
| ROpt (r : regex)                (* r?, greedy *)
| RStar (r : regex)               (* r*, greedy *)
| RGroup (n : nat) (r : regex).   (* the n-th capturing group *)

(** [r+] is one mandatory iteration followed by the greedy star. *)
Definition RPlus (r : regex) : regex := RSeq r (RStar r).

(** A literal word, one atom per character. *)
Fixpoint RWord (w : jsstring) : regex :=
  match w with
  | [] => REmpty
  | c :: w' => RSeq (RSet (Lit c)) (RWord w')
  end.

(** Captures: group number to the pair (start, end) of its last match. *)
Definition captures := nat -> option (nat * nat).

Definition no_captures : captures := fun _ => None.

Definition set_capture (n : nat) (span : nat * nat) (c : captures) : captures :=
  fun m => if Nat.eqb m n then Some span else c m.

(** [\b] holds at [i] when exactly one of the units before and at [i] is
    a word character; outside the text there is no word character. *)
Definition is_word_at (text : jsstring) (i : nat) : bool :=
  match nth_error text i with
  | Some ch => is_word_char ch
  | None => false
  end.

Definition is_word_boundary (text : jsstring) (i : nat) : bool :=
  let before := match i with O => false | S p => is_word_at text p end in
  xorb before (is_word_at text i).

(** A continuation receives the position reached and the captures, and
    answers with the final state of the whole match or with failure. *)
Definition continuation := nat -> captures -> option (nat * captures).

(** The matcher of the language definition, in continuation-passing
    style: alternatives are tried in order, quantifiers are greedy and
    an iteration of a quantifier that consumes nothing is rejected.  A
    star iterates at most once per remaining code unit, which is what
    the bound of its loop counts. *)
Fixpoint rmatch (text : jsstring) (r : regex) (i : nat) (c : captures)
         (k : continuation) {struct r} : option (nat * captures) :=
  match r with
  | REmpty => k i c
  | RSet cls =>
      match nth_error text i with
      | Some ch => if class_matches cls ch then k (S i) c else None
      | None => None
      end
  | RWordB => if is_word_boundary text i then k i c else None
  | RSeq r1 r2 => rmatch text r1 i c (fun j c' => rmatch text r2 j c' k)
  | RAlt r1 r2 =>
      match rmatch text r1 i c k with
      | Some x => Some x
      | None => rmatch text r2 i c k
      end
  | ROpt r1 =>
      match rmatch text r1 i c
              (fun j c' => if i <? j then k j c' else None) with
      | Some x => Some x
      | None => k i c
      end
  | RStar r1 =>
      (fix loop (bound : nat) (i : nat) (c : captures) {struct bound}
         : option (nat * captures) :=
         match bound with
         | O => k i c
         | S bound' =>
             match rmatch text r1 i c
                     (fun j c' => if i <? j then loop bound' j c' else None) with
             | Some x => Some x
             | None => k i c
             end
         end) (List.length text - i) i c
  | RGroup n r1 =>
      rmatch text r1 i c (fun j c' => k j (set_capture n (i, j) c'))
  end.

(** The result of a successful [exec]: [index], the position after the
    match (the new [lastIndex]) and the captures. *)
Record MatchResult : Type := mkMatch {
  index : nat;
  endIndex : nat;
  groups : captures
}.

(** [match[0]] and [match[n]]. *)
Definition matched (text : jsstring) (m : MatchResult) : jsstring :=
  substring text (index m) (endIndex m).

Definition group (text : jsstring) (m : MatchResult) (n : nat) : jsstring :=
  match groups m n with
  | Some (a, b) => substring text a b
  | None => []
  end.

(** The search of [RegExp.prototype.exec] for a global pattern: the
    matcher is tried at [i], then at [i+1], ... up to the end of the text
    ([more] counts the later positions still to try). *)
Fixpoint exec_from (text : jsstring) (r : regex) (more : nat) (i : nat)
  : option MatchResult :=
  match rmatch text r i no_captures (fun j c => Some (j, c)) with
  | Some (j, c) => Some (mkMatch i j c)
  | None =>
      match more with
      | O => None
      | S more' => exec_from text r more' (S i)
      end
  end.

(** [r.exec(text)] with [r.lastIndex = lastIndex]: the match found, if
    any, and the new value of [r.lastIndex] (0 after a failure). *)
Definition exec (text : jsstring) (r : regex) (lastIndex : nat)
  : option MatchResult * nat :=
  if List.length text <? lastIndex then (None, 0)
  else
    match exec_from text r (List.length text - lastIndex) lastIndex with
    | Some m => (Some m, endIndex m)
    | None => (None, 0)
    end.

End Regex.

(* ================================================================== *)
(** * components/RecipeCard.tsx: [renderInstructionText] *)
(* ================================================================== *)

Module RecipeCard.
Import JS Regex.

(** What the renderer pushes on [parts]: a piece of text, or the button
    that opens the timer ([key], the seconds given to [openTimer], and
    the label shown, which is the whole match). *)
Inductive Part : Type :=
| Text (s : jsstring)
| TimerButton (key : nat) (seconds : number) (label : jsstring).

(** The value returned: the fragment of the parts, or the text itself
    when nothing was pushed. *)
Inductive Rendered : Type :=
| Fragment (parts : list Part)
| Plain (text : jsstring).

Definition digits1 : regex := RPlus (RSet Digit).

(** [hours?|hrs?|minutes?|mins?|seconds?|secs?] *)
Definition plural (w : string) : regex :=
  RSeq (RWord (str w)) (ROpt (RSet (Lit 115))).

Definition unitRegex : regex :=
  RAlt (plural "hour")
    (RAlt (plural "hr")
      (RAlt (plural "minute")
        (RAlt (plural "min")
          (RAlt (plural "second") (plural "sec"))))).

(** [/\b(\d+(?:-\d+)?)\s*(hours?|hrs?|minutes?|mins?|seconds?|secs?)\b/gi] *)
Definition timeRegex : regex :=
  RSeq RWordB
    (RSeq (RGroup 1 (RSeq digits1 (ROpt (RSeq (RSet (Lit 45)) digits1))))
      (RSeq (RStar (RSet Space))
        (RSeq (RGroup 2 unitRegex) RWordB))).

(** The multiplier chosen from the lower-cased unit. *)
Definition multiplier_of (unitPart : jsstring) : Z :=
  let multiplier := 60%Z in
  let multiplier :=
    if startsWith unitPart (str "sec") then 1%Z else multiplier in
  if startsWith unitPart (str "hour") || startsWith unitPart (str "hr")
  then 3600%Z else multiplier.

(** [val]: the lower bound of the range, 0 when [parseInt] gives NaN. *)
Definition lower_bound (numberPart : jsstring) : number :=
  match parseInt10 (split_first 45 numberPart) with
  | NaN => Num 0
  | val => val
  end.

(** [val * multiplier] *)
Definition seconds_of (text : jsstring) (m : MatchResult) : number :=
  let numberPart := group text m 1 in
  let unitPart := toLowerCase (group text m 2) in
  number_mul (lower_bound numberPart) (Num (multiplier_of unitPart)).

(** One round of the [while] loop for a match [m]: the parts after the
    two pushes. *)
Definition push_match (text : jsstring) (lastIndex : nat) (m : MatchResult)
           (parts : list Part) : list Part :=
  let parts :=
    if lastIndex <? index m
    then parts ++ [Text (substring text lastIndex (index m))]
    else parts in
  let fullMatch := matched text m in
  let seconds := seconds_of text m in
  if number_gtb seconds (Num 0)
  then parts ++ [TimerButton (index m) seconds fullMatch]
  else parts ++ [Text fullMatch].

(** The [while] loop.  Its state is [timeRegex.lastIndex], the local
    [lastIndex] and [parts]; [fuel] bounds the number of rounds and the
    loop answers [None] if it is used up. *)
Fixpoint render_loop (fuel : nat) (text : jsstring)
         (re_lastIndex lastIndex : nat) (parts : list Part)
  : option (nat * list Part) :=
  match fuel with
  | O => None
  | S fuel' =>
      match exec text timeRegex re_lastIndex with
      | (None, _) => Some (lastIndex, parts)
      | (Some m, re_lastIndex') =>
          render_loop fuel' text re_lastIndex' re_lastIndex'
                      (push_match text lastIndex m parts)
      end
  end.

(** The parts pushed by the whole function, the rest of the text included. *)
Definition render_parts (fuel : nat) (text : jsstring) : option (list Part) :=
  match render_loop fuel text 0 0 [] with
  | None => None
  | Some (lastIndex, parts) =>
      Some (if lastIndex <? List.length text
            then parts ++ [Text (substring_from text lastIndex)]
            else parts)
  end.

(** [renderInstructionText]; every round of the loop consumes at least
    one code unit, so one more round than the text has units is enough
    (lemma [render_parts_total] below). *)
Definition renderInstructionText (text : jsstring) : option Rendered :=
  match render_parts (S (List.length text)) text with
  | None => None
  | Some parts =>
      Some (match parts with
            | [] => Plain text
            | _ :: _ => Fragment parts
            end)
  end.

(** The text a part shows. *)
Definition part_text (p : Part) : jsstring :=
  match p with
  | Text s => s
  | TimerButton _ _ label => label
  end.

Definition rendered_text (r : Rendered) : jsstring :=
  match r with
  | Fragment parts => List.concat (map part_text parts)
  | Plain text => text
  end.

End RecipeCard.

(* ================================================================== *)
(** * components/TimerOverlay.tsx: the countdown *)
(* ================================================================== *)

Module TimerOverlay.
Import JS.

(** The three [useState] cells of the component.  The duration given to
    the overlay, and with it the time left, is a whole and finite
    number. *)
Record TimerState : Type := mkTimer {
  timeLeft : Z;
  isActive : bool;
  isFinished : bool
}.

Section Timer.

Variable durationSeconds : Z.

(** The initial state, also set by the first effect when the overlay
    opens or the duration changes. *)
Definition opened : TimerState := mkTimer durationSeconds true false.

(** The interval is installed by the second effect exactly when
    [isActive && timeLeft > 0]. *)
Definition interval_running (s : TimerState) : bool :=
  isActive s && (0 <? timeLeft s)%Z.

(** The body of the second effect (the interval itself is represented
    by [interval_running]). *)
Definition effect (s : TimerState) : TimerState :=
  if isActive s && (0 <? timeLeft s)%Z then s
  else if (timeLeft s =? 0)%Z then mkTimer (timeLeft s) false true
  else s.

(** The effect runs after a render in which [isActive] or [timeLeft]
    changed. *)
Definition rerender (old new : TimerState) : TimerState :=
  if (timeLeft old =? timeLeft new)%Z && Bool.eqb (isActive old) (isActive new)
  then new
  else effect new.

(** The interval callback: [setTimeLeft(prev => prev - 1)]. *)
Definition decrement (s : TimerState) : TimerState :=
  mkTimer (minus_one (timeLeft s)) (isActive s) (isFinished s).

Definition toggleTimer (s : TimerState) : TimerState :=
  if isFinished s
  then mkTimer durationSeconds true false
  else mkTimer (timeLeft s) (negb (isActive s)) (isFinished s).

Definition resetTimer (s : TimerState) : TimerState :=
  mkTimer durationSeconds false false.

Inductive TimerEvent : Type := Tick | Toggle | Reset.

(** One step of the timer: a tick of the running interval (nothing
    happens when no interval is installed) or a click, followed by the
    effect of the render it causes. *)
Definition step (s : TimerState) (e : TimerEvent) : TimerState :=
  match e with
  | Tick => if interval_running s then rerender s (decrement s) else s
  | Toggle => rerender s (toggleTimer s)
  | Reset => rerender s (resetTimer s)
  end.

Definition run (s : TimerState) (es : list TimerEvent) : TimerState :=
  fold_left step es s.

End Timer.

End TimerOverlay.

(* ================================================================== *)
(** * types.ts *)
(* ================================================================== *)

Module Types.
Import JS.

Inductive LoadingState : Type :=
| IDLE
| CAPTURING
| ANALYZING
| REVIEW_INGREDIENTS
| FETCHING_RECIPES
| SHOWING_RESULTS
| ERROR.

Record Ingredient : Type := mkIngredient {
  name : jsstring;
  quantity : jsstring
}.

Record NutritionalInfo : Type := mkNutritionalInfo {
  calories : jsstring;
  protein : jsstring;
  carbs : jsstring;
  fat : jsstring
}.

Record Recipe : Type := mkRecipe {
  recipeName : jsstring;
  description : jsstring;
  ingredients : list jsstring;
  instructions : list jsstring;
  nutritionalInfo : NutritionalInfo;
  prepTime : jsstring
}.

End Types.

(* ================================================================== *)
(** * services/geminiService.ts *)
(* ================================================================== *)

Module GeminiService.
Import JS Types.

(** What can be thrown: an [Error] object with its message, or any
    other value. *)
Inductive thrown : Type :=
| ErrorObject (message : jsstring)
| OtherValue.

(** The outcome of a computation that may throw. *)
Inductive result (A : Type) : Type :=
| Returned (a : A)
| Thrown (e : thrown).

Arguments Returned {A} a.
Arguments Thrown {A} e.

Definition bind {A B : Type} (m : result A) (f : A -> result B) : result B :=
  match m with
  | Returned a => f a
  | Thrown e => Thrown e
  end.

(** [try { body } catch (error) { handler(error) }] *)
Definition try_catch {A : Type} (body : result A) (handler : thrown -> result A)
  : result A :=
  match body with
  | Returned a => Returned a
  | Thrown e => handler e
  end.

(** The response of [ai.models.generateContent]: its [text] is a string
    or undefined. *)
Record GenerateContentResponse : Type := mkResponse {
  text : option jsstring
}.

(** [response.text?.trim() || "[]"] *)
Definition jsonText_of (response : GenerateContentResponse) : jsstring :=
  match text response with
  | None => str "[]"
  | Some t => if truthy (trim t) then trim t else str "[]"
  end.

Definition identify_failure : jsstring :=
  str "Failed to identify ingredients from the images. Please try clearer pictures.".

Definition recipes_failure : jsstring :=
  str "Failed to generate recipes. The ingredients might not be suitable for common dishes.".

Section Service.

(** [JSON.parse] belongs to the runtime and is a parameter here.  It
    throws on text that is not JSON and returns the value the text
    denotes otherwise, of whatever kind; [json] is the type of what it
    returns.  The two functions hand that value on as it is: the casts
    [as Ingredient[]] and [as Recipe[]] are erased, and nothing compares
    the value with the response schema sent along with the request. *)
Variable json : Type.
Variable JSON_parse : jsstring -> result json.

(** The awaited call to the service is the other parameter: it resolves
    with a response or rejects.  The request (image parts, prompt, model,
    schema) is built from the arguments: the image parts inside the
    [try], the prompt of the recipes ([promptText] below) before it, by
    [ingredients.map] over the list the caller holds. *)
Definition identifyIngredientsFromImage
           (generateContent : result GenerateContentResponse)
  : result json :=
  try_catch
    (bind generateContent (fun response =>
       let jsonText := jsonText_of response in
       JSON_parse jsonText))
    (fun _ => Thrown (ErrorObject identify_failure)).

Definition fetchRecipesFromIngredients
           (generateContent : result GenerateContentResponse)
  : result json :=
  try_catch
    (bind generateContent (fun response =>
       let jsonText := jsonText_of response in
       JSON_parse jsonText))
    (fun _ => Thrown (ErrorObject recipes_failure)).

End Service.

End GeminiService.

(* ================================================================== *)
(** * App.tsx: the session state and its handlers *)
(* ================================================================== *)

Module App.
Import JS Types GeminiService.

(** The [useState] cells of [App] and the camera stream held in
    [streamRef] ([true] while a stream is stored there). *)
Record State : Type := mkState {
  loadingState : LoadingState;
  images : list jsstring;
  ingredients : list Ingredient;
  recipes : list Recipe;
  error : option jsstring;
  servings : Z;
  cuisine : jsstring;
  deferredPrompt : bool;
  newIngredientInput : jsstring;
  streamRef : bool
}.

Definition initial : State :=
  mkState IDLE [] [] [] None 1 (str "Open") false [] false.

(** The setters. *)
Definition setLoadingState (v : LoadingState) (s : State) : State :=
  mkState v (images s) (ingredients s) (recipes s) (error s) (servings s)
          (cuisine s) (deferredPrompt s) (newIngredientInput s) (streamRef s).
Definition setImages (v : list jsstring) (s : State) : State :=
  mkState (loadingState s) v (ingredients s) (recipes s) (error s) (servings s)
          (cuisine s) (deferredPrompt s) (newIngredientInput s) (streamRef s).
Definition setIngredients (v : list Ingredient) (s : State) : State :=
  mkState (loadingState s) (images s) v (recipes s) (error s) (servings s)
          (cuisine s) (deferredPrompt s) (newIngredientInput s) (streamRef s).
Definition setRecipes (v : list Recipe) (s : State) : State :=
  mkState (loadingState s) (images s) (ingredients s) v (error s) (servings s)
          (cuisine s) (deferredPrompt s) (newIngredientInput s) (streamRef s).
Definition setError (v : option jsstring) (s : State) : State :=
  mkState (loadingState s) (images s) (ingredients s) (recipes s) v (servings s)
          (cuisine s) (deferredPrompt s) (newIngredientInput s) (streamRef s).
Definition setServings (v : Z) (s : State) : State :=
  mkState (loadingState s) (images s) (ingredients s) (recipes s) (error s) v
          (cuisine s) (deferredPrompt s) (newIngredientInput s) (streamRef s).
Definition setCuisine (v : jsstring) (s : State) : State :=
  mkState (loadingState s) (images s) (ingredients s) (recipes s) (error s)
          (servings s) v (deferredPrompt s) (newIngredientInput s) (streamRef s).
Definition setDeferredPrompt (v : bool) (s : State) : State :=
  mkState (loadingState s) (images s) (ingredients s) (recipes s) (error s)
          (servings s) (cuisine s) v (newIngredientInput s) (streamRef s).
Definition setNewIngredientInput (v : jsstring) (s : State) : State :=
  mkState (loadingState s) (images s) (ingredients s) (recipes s) (error s)
          (servings s) (cuisine s) (deferredPrompt s) v (streamRef s).
Definition setStreamRef (v : bool) (s : State) : State :=
  mkState (loadingState s) (images s) (ingredients s) (recipes s) (error s)
          (servings s) (cuisine s) (deferredPrompt s) (newIngredientInput s) v.

Definition stopCamera (s : State) : State := setStreamRef false s.

Definition camera_failure : jsstring :=
  str "Could not access the camera. Please check permissions and try again.".

Definition nothing_identified : jsstring :=
  str "No ingredients could be identified. Please try clearer pictures with well-lit ingredients.".

Definition unknown_error : jsstring := str "An unknown error occurred.".

(** [err instanceof Error ? err.message : "An unknown error occurred."] *)
Definition errorMessage (err : thrown) : jsstring :=
  match err with
  | ErrorObject message => message
  | OtherValue => unknown_error
  end.

(** ** [handleStartCamera]: up to the [await], and after it *)

Definition handleStartCamera_begin (s : State) : State :=
  setLoadingState CAPTURING (setError None s).

Definition handleStartCamera_settled (getUserMedia : result unit) (s : State)
  : State :=
  match getUserMedia with
  | Returned _ => setStreamRef true s
  | Thrown _ => setLoadingState ERROR (setError (Some camera_failure) s)
  end.

(** ** [handleAnalyze]

    [identifiedIngredients] is taken at its declared type, a list of
    records.  On a value of another kind the test of [.length] does not
    hold, or throws for [null], and the [catch] of the handler then
    stores the message of that error; either way the view state set is
    reviewing or error, as for a list. *)

Definition handleAnalyze_begin (s : State) : State :=
  match images s with
  | [] => s
  | _ :: _ => setLoadingState ANALYZING s
  end.

Definition handleAnalyze_settled (identified : result (list Ingredient))
           (s : State) : State :=
  match identified with
  | Returned [] =>
      setLoadingState ERROR (setError (Some nothing_identified) s)
  | Returned identifiedIngredients =>
      setLoadingState REVIEW_INGREDIENTS (setIngredients identifiedIngredients s)
  | Thrown err =>
      setLoadingState ERROR (setError (Some (errorMessage err)) s)
  end.

(** ** [handleGenerateRecipes] *)

Definition handleGenerateRecipes_begin (s : State) : State :=
  setLoadingState FETCHING_RECIPES s.

Definition handleGenerateRecipes_settled (suggested : result (list Recipe))
           (s : State) : State :=
  match suggested with
  | Returned suggestedRecipes =>
      setLoadingState SHOWING_RESULTS (setRecipes suggestedRecipes s)
  | Thrown err =>
      setLoadingState ERROR (setError (Some (errorMessage err)) s)
  end.

(** ** The capture screen *)

(** [handleCaptureImage]: [frame] is the data URL drawn from the video,
    absent when a ref or the 2d context is missing. *)
Definition handleCaptureImage (frame : option jsstring) (s : State) : State :=
  match frame with
  | Some dataUrl =>
      setLoadingState IDLE (stopCamera (setImages (images s ++ [dataUrl]) s))
  | None => s
  end.

(** The Cancel button. *)
Definition cancelCapture (s : State) : State :=
  setLoadingState IDLE (stopCamera s).

(** ** [handleFileChange]

    The handler starts a [FileReader] and installs [onload] only; the
    model has one function per event the reader can then fire. *)

Definition reader_onload (dataUrl : jsstring) (s : State) : State :=
  setImages (images s ++ [dataUrl]) s.

(** No [onerror] (nor [onabort]) is installed: the event has no listener. *)
Definition reader_onerror (s : State) : State := s.

(** ** Lists *)

(** [prev.filter((_, i) => i !== index)] *)
Fixpoint remove_at {A : Type} (index : nat) (l : list A) : list A :=
  match l, index with
  | [], _ => []
  | _ :: l', O => l'
  | x :: l', S index' => x :: remove_at index' l'
  end.

Definition removeImage (index : nat) (s : State) : State :=
  setImages (remove_at index (images s)) s.

Definition removeIngredient (index : nat) (s : State) : State :=
  setIngredients (remove_at index (ingredients s)) s.

Definition addIngredient (s : State) : State :=
  if truthy (trim (newIngredientInput s))
  then setNewIngredientInput []
         (setIngredients
            (ingredients s ++ [mkIngredient (trim (newIngredientInput s)) []]) s)
  else s.

(** ** [handleReset] *)

Definition handleReset (s : State) : State :=
  setNewIngredientInput []
    (setCuisine (str "Open")
      (setServings 1
        (setError None
          (setRecipes []
            (setIngredients []
              (setImages []
                (setLoadingState IDLE (stopCamera s)))))))).

(** ** The serving-size buttons *)

Definition decreaseServings (s : State) : State :=
  setServings (Z.max 1 (servings s - 1)) s.

Definition increaseServings (s : State) : State :=
  setServings (servings s + 1) s.

(** ** The events of a session

    User events are the controls [renderContent] draws; the others are
    the settling of an awaited call ([CameraSettled], [AnalyzeSettled],
    [GenerateSettled], and [InstallChoice] for the choice awaited by
    [handleInstallClick]), a [FileReader] event and the browser's
    install prompt. *)
Inductive Event : Type :=
| StartCamera
| CameraSettled (getUserMedia : result unit)
| CancelCapture
| CaptureImage (frame : option jsstring)
| ReaderLoad (dataUrl : jsstring)
| ReaderError
| RemoveImage (index : nat)
| DecreaseServings
| IncreaseServings
| SelectCuisine (value : jsstring)
| Analyze
| AnalyzeSettled (generateContent : result GenerateContentResponse)
| TypeIngredient (value : jsstring)
| AddIngredient
| RemoveIngredient (index : nat)
| GenerateRecipes
| GenerateSettled (generateContent : result GenerateContentResponse)
| Reset
| BeforeInstallPrompt
| InstallChoice (accepted : bool).

(** The screen [renderContent] draws for a state. *)
Inductive Screen : Type := Start | Camera | Loading | Review | Results.

Definition screen (l : LoadingState) : Screen :=
  match l with
  | IDLE | ERROR => Start
  | CAPTURING => Camera
  | ANALYZING | FETCHING_RECIPES => Loading
  | REVIEW_INGREDIENTS => Review
  | SHOWING_RESULTS => Results
  end.

Definition nonempty {A : Type} (l : list A) : bool :=
  match l with [] => false | _ :: _ => true end.

(** When an event can occur.  A control must be drawn on the current
    screen and not be disabled.  An awaited call ([getUserMedia], the two
    service calls, the choice made in the install prompt) is never
    cancelled: it settles at any later moment, whatever the session has
    become by then, and the rest of its handler runs there.  The model
    does not record which calls are pending and lets a settlement arrive
    in every state, like the events of the file reader and of the
    browser. *)
Definition enabled (s : State) (e : Event) : bool :=
  match e, screen (loadingState s) with
  | StartCamera, Start => true
  | DecreaseServings, Start => true
  | IncreaseServings, Start => true
  | SelectCuisine _, Start => true
  | RemoveImage index, Start => index <? List.length (images s)
  | Analyze, Start => nonempty (images s)
  | CancelCapture, Camera => true
  | CaptureImage _, Camera => true
  | TypeIngredient _, Review => true
  | AddIngredient, Review => true
  | RemoveIngredient index, Review => index <? List.length (ingredients s)
  | GenerateRecipes, Review => nonempty (ingredients s)
  | Reset, Review => true
  | Reset, Results => true
  | CameraSettled _, _ => true
  | AnalyzeSettled _, _ => true
  | GenerateSettled _, _ => true
  | InstallChoice _, _ => true
  | ReaderLoad _, _ => true
  | ReaderError, _ => true
  | BeforeInstallPrompt, _ => true
  | _, _ => false
  end.

Section Session.

(** [App] holds what the service functions return in cells declared
    [Ingredient[]] and [Recipe[]]; the session takes [JSON.parse] at
    these types, that is, with a service that answers within the schema
    of the request. *)
Variable parse_ingredients : jsstring -> result (list Ingredient).
Variable parse_recipes : jsstring -> result (list Recipe).

(** The handler run for an event. *)
Definition handle (e : Event) (s : State) : State :=
  match e with
  | StartCamera => handleStartCamera_begin s
  | CameraSettled getUserMedia => handleStartCamera_settled getUserMedia s
  | CancelCapture => cancelCapture s
  | CaptureImage frame => handleCaptureImage frame s
  | ReaderLoad dataUrl => reader_onload dataUrl s
  | ReaderError => reader_onerror s
  | RemoveImage index => removeImage index s
  | DecreaseServings => decreaseServings s
  | IncreaseServings => increaseServings s
  | SelectCuisine value => setCuisine value s
  | Analyze => handleAnalyze_begin s
  | AnalyzeSettled generateContent =>
      handleAnalyze_settled
        (identifyIngredientsFromImage parse_ingredients generateContent) s
  | TypeIngredient value => setNewIngredientInput value s
  | AddIngredient => addIngredient s
  | RemoveIngredient index => removeIngredient index s
  | GenerateRecipes => handleGenerateRecipes_begin s
  | GenerateSettled generateContent =>
      handleGenerateRecipes_settled
        (fetchRecipesFromIngredients parse_recipes generateContent) s
  | Reset => handleReset s
  | BeforeInstallPrompt => setDeferredPrompt true s
  | InstallChoice accepted =>
      if accepted then setDeferredPrompt false s else s
  end.

(** One step of the session. *)
Inductive step : State -> Event -> State -> Prop :=
| step_event (s : State) (e : Event) :
    enabled s e = true -> step s e (handle e s).

(** The states a session can be in. *)
Inductive reachable : State -> Prop :=
| reachable_initial : reachable initial
| reachable_step (s s' : State) (e : Event) :
    reachable s -> step s e s' -> reachable s'.

End Session.

End App.

(* ================================================================== *)
(** * Specifications *)
(* ================================================================== *)

Import JS Regex RecipeCard Types GeminiService.

(** ** The countdown *)

(** While the overlay is open on a positive duration, the time left
    stays between 0 and the duration, it is 0 exactly when the timer is
    finished, and a finished timer is not active. *)
Definition timer_invariant (durationSeconds : Z) (s : TimerOverlay.TimerState)
  : Prop :=
  (0 <= TimerOverlay.timeLeft s <= durationSeconds)%Z /\
  (TimerOverlay.isFinished s = true <-> TimerOverlay.timeLeft s = 0%Z) /\
  (TimerOverlay.isFinished s = true -> TimerOverlay.isActive s = false).

(** ** The service and the session *)

(** A response without text, or whose text is empty or white space. *)
Definition blank_response (response : GenerateContentResponse) : bool :=
  match text response with
  | None => true
  | Some t => forallb is_space t
  end.

(** A stand-in for [JSON.parse] that knows the empty array only; it
    instantiates the parser where an example needs one. *)
Definition parse_empty_array {A : Type} (jsonText : jsstring) : result (list A) :=
  if list_eq_dec N.eq_dec jsonText (str "[]")
  then Returned []
  else Thrown (ErrorObject (str "SyntaxError")).

(** The edges the specification allows, in its words: the sequence
    idle, capturing, analyzing, reviewing, fetching, showing-results
    taken one stage at a time, any edge into the error state, the edges
    from capturing back to idle and the reset edge from any state to
    idle. *)
Definition next_stage (l : LoadingState) : option LoadingState :=
  match l with
  | IDLE => Some CAPTURING
  | CAPTURING => Some ANALYZING
  | ANALYZING => Some REVIEW_INGREDIENTS
  | REVIEW_INGREDIENTS => Some FETCHING_RECIPES
  | FETCHING_RECIPES => Some SHOWING_RESULTS
  | SHOWING_RESULTS => None
  | ERROR => None
  end.

Definition LoadingState_eqb (a b : LoadingState) : bool :=
  match a, b with
  | IDLE, IDLE | CAPTURING, CAPTURING | ANALYZING, ANALYZING
  | REVIEW_INGREDIENTS, REVIEW_INGREDIENTS
  | FETCHING_RECIPES, FETCHING_RECIPES
  | SHOWING_RESULTS, SHOWING_RESULTS | ERROR, ERROR => true
  | _, _ => false
  end.

Definition claimed_edge (a b : LoadingState) : bool :=
  match b with
  | ERROR => true
  | IDLE => true
  | _ => match next_stage a with
         | Some b' => LoadingState_eqb b b'
         | None => false
         end
  end.

(** The edges of the controls.  The camera is entered from the start
    screen, which is drawn for idle and for error alike, and a capture
    returns to idle; the analysis starts from the start screen too. *)
Definition action_edge (a b : LoadingState) : bool :=
  match a, b with
  | IDLE, CAPTURING | ERROR, CAPTURING            (* start camera *)
  | CAPTURING, IDLE                               (* cancel, capture *)
  | IDLE, ANALYZING | ERROR, ANALYZING            (* scan ingredients *)
  | REVIEW_INGREDIENTS, FETCHING_RECIPES          (* generate recipes *)
  | REVIEW_INGREDIENTS, IDLE | SHOWING_RESULTS, IDLE (* start over *) => true
  | _, _ => false
  end.

(** The events that are the settling of an awaited call. *)
Definition is_settlement (e : App.Event) : bool :=
  match e with
  | App.CameraSettled _ | App.AnalyzeSettled _ | App.GenerateSettled _ => true
  | _ => false
  end.

(** The view states the rest of a handler can set once its call has
    settled, whatever the view state is by then. *)
Definition settlement_target (e : App.Event) (b : LoadingState) : bool :=
  match e, b with
  | App.CameraSettled _, ERROR
  | App.AnalyzeSettled _, REVIEW_INGREDIENTS
  | App.AnalyzeSettled _, ERROR
  | App.GenerateSettled _, SHOWING_RESULTS
  | App.GenerateSettled _, ERROR => true
  | _, _ => false
  end.

(** The settlements that are failures: the camera is refused, the
    identification throws or finds nothing, the generation throws. *)
Definition settled_failure
           (parse_ingredients : jsstring -> result (list Ingredient))
           (parse_recipes : jsstring -> result (list Recipe))
           (e : App.Event) : bool :=
  match e with
  | App.CameraSettled (Thrown _) => true
  | App.AnalyzeSettled generateContent =>
      match identifyIngredientsFromImage parse_ingredients generateContent with
      | Returned (_ :: _) => false
      | _ => true
      end
  | App.GenerateSettled generateContent =>
      match fetchRecipesFromIngredients parse_recipes generateContent with
      | Returned _ => false
      | Thrown _ => true
      end
  | _ => false
  end.

(** ** The values of [JSON.parse] *)

(** What [JSON.parse] can return. *)
#[warnings="-register-all"] Inductive Json : Type :=
| JNull
| JBool (b : bool)
| JNumber (literal : jsstring)
| JString (s : jsstring)
| JArray (items : list Json)
| JObject (members : list (jsstring * Json)).

Fixpoint member (key : jsstring) (members : list (jsstring * Json))
  : option Json :=
  match members with
  | [] => None
  | (k, v) :: members' =>
      if list_eq_dec N.eq_dec k key then Some v else member key members'
  end.

Definition is_string (v : option Json) : bool :=
  match v with Some (JString _) => true | _ => false end.

Definition is_string_array (v : option Json) : bool :=
  match v with
  | Some (JArray items) => forallb (fun item => is_string (Some item)) items
  | _ => false
  end.

(** The response shapes of the two requests: an array of objects with
    the required members. *)
Definition is_ingredient (v : Json) : bool :=
  match v with
  | JObject members =>
      is_string (member (str "name") members)
      && is_string (member (str "quantity") members)
  | _ => false
  end.

Definition is_ingredient_array (v : Json) : bool :=
  match v with
  | JArray items => forallb is_ingredient items
  | _ => false
  end.

Definition is_nutritional_info (v : option Json) : bool :=
  match v with
  | Some (JObject members) =>
      is_string (member (str "calories") members)
      && is_string (member (str "protein") members)
      && is_string (member (str "carbs") members)
      && is_string (member (str "fat") members)
  | _ => false
  end.

Definition is_recipe (v : Json) : bool :=
  match v with
  | JObject members =>
      is_string (member (str "recipeName") members)
      && is_string (member (str "description") members)
      && is_string (member (str "prepTime") members)
      && is_string_array (member (str "ingredients") members)
      && is_string_array (member (str "instructions") members)
      && is_nutritional_info (member (str "nutritionalInfo") members)
  | _ => false
  end.

Definition is_recipe_array (v : Json) : bool :=
  match v with
  | JArray items => forallb is_recipe items
  | _ => false
  end.

(** [JSON.parse] on the texts of the examples: the literal [null], the
    empty array, and one text that is not JSON. *)
Definition parse_literal (jsonText : jsstring) : result Json :=
  if list_eq_dec N.eq_dec jsonText (str "null") then Returned JNull
  else if list_eq_dec N.eq_dec jsonText (str "[]") then Returned (JArray [])
  else Thrown (ErrorObject (str "Unexpected token")).

(** ** The pattern, read declaratively *)

Section Semantics.

Variable text : jsstring.

(** [Matches r i c j c']: the pattern [r] can match the units from [i]
    up to [j], taking the captures from [c] to [c'].  No order of
    alternatives and no greediness here. *)
Inductive Matches : regex -> nat -> captures -> nat -> captures -> Prop :=
| M_empty (i : nat) (c : captures) :
    Matches REmpty i c i c
| M_set (cls : char_class) (i : nat) (c : captures) (ch : N) :
    nth_error text i = Some ch -> class_matches cls ch = true ->
    Matches (RSet cls) i c (S i) c
| M_wordb (i : nat) (c : captures) :
    is_word_boundary text i = true ->
    Matches RWordB i c i c
| M_seq (r1 r2 : regex) (i j k : nat) (c c' c'' : captures) :
    Matches r1 i c j c' -> Matches r2 j c' k c'' ->
    Matches (RSeq r1 r2) i c k c''
| M_alt_l (r1 r2 : regex) (i j : nat) (c c' : captures) :
    Matches r1 i c j c' -> Matches (RAlt r1 r2) i c j c'
| M_alt_r (r1 r2 : regex) (i j : nat) (c c' : captures) :
    Matches r2 i c j c' -> Matches (RAlt r1 r2) i c j c'
| M_opt_some (r : regex) (i j : nat) (c c' : captures) :
    Matches r i c j c' -> i < j -> Matches (ROpt r) i c j c'
| M_opt_none (r : regex) (i : nat) (c : captures) :
    Matches (ROpt r) i c i c
| M_star_nil (r : regex) (i : nat) (c : captures) :
    Matches (RStar r) i c i c
| M_star_cons (r : regex) (i j k : nat) (c c' c'' : captures) :
    Matches r i c j c' -> i < j -> Matches (RStar r) j c' k c'' ->
    Matches (RStar r) i c k c''
| M_group (n : nat) (r : regex) (i j : nat) (c c' : captures) :
    Matches r i c j c' ->
    Matches (RGroup n r) i c j (set_capture n (i, j) c').

(** The loop of the star, named. *)
Section StarLoop.

Variable r1 : regex.
Variable k : continuation.

Fixpoint star_loop (bound : nat) (i : nat) (c : captures) {struct bound}
  : option (nat * captures) :=
  match bound with
  | O => k i c
  | S bound' =>
      match rmatch text r1 i c
              (fun j c' => if i <? j then star_loop bound' j c' else None) with
      | Some x => Some x
      | None => k i c
      end
  end.

End StarLoop.

End Semantics.

(** The last continuation of [exec_from]: the match is complete. *)
Definition accept : continuation := fun j c => Some (j, c).

(** The lower-case ASCII letters. *)
Definition is_lower (c : N) : bool := in_range 97 122 c.

(** [word s?] for a lower-case word. *)
Definition pluralw (word : jsstring) : regex :=
  RSeq (RWord word) (ROpt (RSet (Lit 115))).

(** ** Time phrases: what the pattern describes *)

(** The unit words and their length in seconds. *)
Definition unit_table : list (jsstring * Z) :=
  [ (str "hours", 3600%Z); (str "hour", 3600%Z);
    (str "hrs", 3600%Z); (str "hr", 3600%Z);
    (str "minutes", 60%Z); (str "minute", 60%Z);
    (str "mins", 60%Z); (str "min", 60%Z);
    (str "seconds", 1%Z); (str "second", 1%Z);
    (str "secs", 1%Z); (str "sec", 1%Z) ].

Definition jsstring_eqb (a b : jsstring) : bool :=
  if list_eq_dec N.eq_dec a b then true else false.

Fixpoint lookup_unit (w : jsstring) (table : list (jsstring * Z)) : option Z :=
  match table with
  | [] => None
  | (word, seconds) :: table' =>
      if jsstring_eqb w word then Some seconds else lookup_unit w table'
  end.

(** The seconds in one unit named by [w], in any letter case. *)
Definition unit_seconds (w : jsstring) : option Z :=
  lookup_unit (toLowerCase w) unit_table.

(** [time_phrase text i j lo mult]: the units of [text] from [i] up to
    [j] are a number, with lower bound [lo] and possibly continued by a
    dash and a second number, then any white space, then a unit word
    worth [mult] seconds, and both [i] and [j] are word boundaries.
    The positions [a], [b], [c] end the lower bound, end the number and
    start the unit. *)
Definition time_phrase (text : jsstring) (i j : nat) (lo : jsstring) (mult : Z)
  : Prop :=
  exists a b c : nat,
    i < a /\ a <= b /\ b <= c /\ c < j /\ j <= List.length text /\
    lo = substring text i a /\
    forallb is_digit lo = true /\
    (b = a \/
     (nth_error text a = Some 45%N /\ S a < b /\
      forallb is_digit (substring text (S a) b) = true)) /\
    forallb is_space (substring text b c) = true /\
    unit_seconds (substring text c j) = Some mult /\
    is_word_boundary text i = true /\
    is_word_boundary text j = true.

(** The duration of a phrase: its lower bound, read as a double, times
    the worth of its unit, as a double. *)
Definition phrase_seconds (lo : jsstring) (mult : Z) : number :=
  number_mul (double_of (decimal lo)) (Num mult).

(** What the renderer shows for a phrase: the timer button on its
    duration, or the phrase as plain text when the lower bound is 0. *)
Definition phrase_part (text : jsstring) (i j : nat) (lo : jsstring) (mult : Z)
  : Part :=
  if (0 <? decimal lo)%Z
  then TimerButton i (phrase_seconds lo mult) (substring text i j)
  else Text (substring text i j).

Definition text_between (text : jsstring) (p i : nat) : list Part :=
  if p <? i then [Text (substring text p i)] else [].

Definition text_after (text : jsstring) (p : nat) : list Part :=
  if p <? List.length text then [Text (substring_from text p)] else [].

(** [annotated text p parts]: [parts] is the annotation of [text] from
    position [p] on.  Either no phrase starts at [p] or later and the
    rest of the text, if any, is one plain part; or the first phrase
    starting at [p] or later runs from [i] to [j], the text before it is
    a plain part, the phrase gives its part, and the annotation goes on
    from [j]. *)
Inductive annotated (text : jsstring) : nat -> list Part -> Prop :=
| annotated_rest (p : nat) :
    (forall i j lo mult, p <= i -> ~ time_phrase text i j lo mult) ->
    annotated text p (text_after text p)
| annotated_phrase (p i j : nat) (lo : jsstring) (mult : Z) (rest : list Part) :
    p <= i ->
    time_phrase text i j lo mult ->
    (forall i' j' lo' mult', p <= i' -> i' < i ->
                             ~ time_phrase text i' j' lo' mult') ->
    annotated text j rest ->
    annotated text p
      (text_between text p i ++ phrase_part text i j lo mult :: rest).

(* ================================================================== *)
(** * The rest of the components *)
(* ================================================================== *)

(** ** Numbers as text *)

(** The decimal digits of a natural number, most significant first;
    [fuel] bounds the number of digits. *)
Fixpoint digits_of (fuel : nat) (n : N) (acc : jsstring) : jsstring :=
  match fuel with
  | O => acc
  | S fuel' =>
      let acc' := (48 + n mod 10)%N :: acc in
      if (n <? 10)%N then acc' else digits_of fuel' (n / 10) acc'
  end.

Definition natural_toString (n : N) : jsstring :=
  digits_of (S (N.to_nat (N.log2 n))) n [].

(** [Number.prototype.toString] on a whole number below 10^21 in
    magnitude, where the text is the plain decimal form (from 10^21 on
    the language switches to the exponent form, which is not modelled;
    the numbers printed here are minutes, seconds and servings). *)
Definition number_toString (z : Z) : jsstring :=
  match z with
  | Z.neg p => 45%N :: natural_toString (N.pos p)
  | _ => natural_toString (Z.to_N z)
  end.

(** [s.padStart(targetLength, c)] for a one-unit filler. *)
Definition padStart (targetLength : nat) (c : N) (s : jsstring) : jsstring :=
  repeat c (targetLength - List.length s) ++ s.

(** The first unit, if any, is not white space. *)
Definition starts_clean (s : jsstring) : Prop :=
  match s with
  | [] => True
  | c :: _ => is_space c = false
  end.

(** ** components/TimerOverlay.tsx: [formatTime] *)

(** [Math.floor(seconds / 60)], [seconds % 60], each shown on at least
    two digits, for [seconds] between 0 and 2^53.  There the quotient of
    the doubles, once floored, is the quotient of the integers: the exact
    quotient is a whole number or at least 1/60 away from the next one,
    and a double below 2^48 is rounded by at most 1/64. *)
Definition formatTime (seconds : Z) : jsstring :=
  let m := (seconds / 60)%Z in
  let s := Z.rem seconds 60 in
  padStart 2 48 (number_toString m) ++ 58%N :: padStart 2 48 (number_toString s).

(** ** components/RecipeCard.tsx: the timer the card holds *)


Definition closeTimer (timerDuration : option number) : option number := None.




(** ** components/TimerOverlay.tsx: the effect on the props *)


(** The keys of the buttons among the parts, in order. *)
Fixpoint button_keys (parts : list Part) : list nat :=
  match parts with
  | [] => []
  | Text _ :: parts' => button_keys parts'
  | TimerButton key _ _ :: parts' => key :: button_keys parts'
  end.

(** ** App.tsx: the list operations as written *)

(** [l.filter((x, i) => f(x, i))], the elements numbered from [i]. *)
Fixpoint filter_index {A : Type} (f : A -> nat -> bool) (i : nat) (l : list A)
  : list A :=
  match l with
  | [] => []
  | x :: l' =>
      if f x i then x :: filter_index f (S i) l' else filter_index f (S i) l'
  end.

(** [s.split(sep)] for a one-unit separator. *)
Fixpoint split (sep : N) (s : jsstring) : list jsstring :=
  match s with
  | [] => [[]]
  | c :: s' =>
      if (c =? sep)%N then [] :: split sep s'
      else match split sep s' with
           | piece :: pieces => (c :: piece) :: pieces
           | [] => [[c]]
           end
  end.

(** [img.split(',')[1]] of [handleAnalyze]: undefined is [None]. *)
Definition base64_of (img : jsstring) : option jsstring :=
  nth_error (split 44 img) 1.

(** While the session is analyzing an image is staged, and while it is
    fetching recipes an ingredient is listed. *)
Definition staged_invariant (s : App.State) : Prop :=
  match App.loadingState s with
  | ANALYZING => App.images s <> []
  | FETCHING_RECIPES => App.ingredients s <> []
  | _ => True
  end.

(** ** services/geminiService.ts: the prompt for the recipes *)

(** [i.quantity ? `${i.quantity} ${i.name}` : i.name] *)
Definition ingredient_entry (i : Ingredient) : jsstring :=
  if truthy (quantity i) then quantity i ++ 32%N :: name i else name i.

(** [pieces.join(sep)] *)
Fixpoint join (sep : jsstring) (pieces : list jsstring) : jsstring :=
  match pieces with
  | [] => []
  | [piece] => piece
  | piece :: pieces' => piece ++ sep ++ join sep pieces'
  end.

Definition ingredientList (ingredients : list Ingredient) : jsstring :=
  join (str ", ") (map ingredient_entry ingredients).

Definition cuisine_sentence (cuisine : jsstring) : jsstring :=
  if truthy cuisine && negb (jsstring_eqb cuisine (str "Open"))
  then str " The recipes must strictly align with the '" ++ cuisine
         ++ str "' cuisine or dietary style."
  else [].

Definition promptText (ingredients : list Ingredient) (servings : Z)
           (cuisine : jsstring) : jsstring :=
  str "Based on the following ingredients: " ++ ingredientList ingredients
    ++ str ", please provide 3 diverse recipe suggestions for "
    ++ number_toString servings ++ str " serving(s)."
    ++ cuisine_sentence cuisine
    ++ str " For each recipe, include a brief, enticing description, an estimated prep time (e.g. "
    ++ 34%N :: str "30 mins" ++ 34%N
    :: str "), a list of all required ingredients with quantities adjusted for the specified serving size, step-by-step instructions, and an estimated nutritional overview per serving (calories, protein, carbs, fat). Provide the response as a JSON array.".

(** [s] occurs in [t] as a run of consecutive units. *)
Definition occurs_in (s t : jsstring) : Prop :=
  exists before after : jsstring, t = before ++ s ++ after.

(* ================================================================== *)
(** * Properties *)
(* ================================================================== *)

(** ** Doubles that are whole numbers *)

Lemma round53_small (a : Z) : (a <= two53)%Z -> round53 a = a.
Proof.
  intros H. unfold round53.
  destruct (Z.leb_spec a two53); [reflexivity | lia].
Qed.

(** Up to 2^53 in magnitude every integer is a double. *)
Lemma double_of_small (z : Z) : (Z.abs z <= two53)%Z -> double_of z = Num z.
Proof.
  intros H. unfold double_of. rewrite round53_small by exact H.
  destruct (Z.leb_spec (2 ^ 1024) (Z.abs z)) as [Hb | Hb].
  - exfalso. assert (two53 < 2 ^ 1024)%Z by (vm_compute; reflexivity). lia.
  - f_equal. destruct z; reflexivity.
Qed.

(** Above 2^53 the rounded value is one of the two neighbouring multiples
    of the unit in the last place. *)
Lemma round53_cases (a : Z) :
  (two53 < a)%Z ->
  let e := (Z.log2 a - 52)%Z in
  (1 <= e)%Z /\ (0 < 2 ^ e)%Z /\
  (round53 a = (a / 2 ^ e * 2 ^ e)%Z \/
   round53 a = ((a / 2 ^ e + 1) * 2 ^ e)%Z).
Proof.
  intros Ha e. unfold two53 in Ha.
  assert (He : (1 <= e)%Z).
  { unfold e. assert (53 <= Z.log2 a)%Z; [| lia].
    apply Z.log2_le_pow2; lia. }
  assert (Hp : (0 < 2 ^ e)%Z) by (apply Z.pow_pos_nonneg; lia).
  split; [exact He | split; [exact Hp |]].
  unfold round53, two53. destruct (Z.leb_spec a (2 ^ 53)); [lia |].
  fold e.
  destruct (a mod 2 ^ e <? 2 ^ (e - 1))%Z; [left; reflexivity |].
  destruct (2 ^ (e - 1) <? a mod 2 ^ e)%Z; [right; reflexivity |].
  destruct (Z.even (a / 2 ^ e)); [left | right]; reflexivity.
Qed.

Lemma round53_bounds (a : Z) :
  (0 <= a)%Z -> (0 <= round53 a)%Z /\ ((0 < a)%Z -> (0 < round53 a)%Z).
Proof.
  intros Ha. destruct (Z.leb_spec a two53) as [Hs | Hs].
  - rewrite round53_small by exact Hs. lia.
  - destruct (round53_cases Hs) as (He & Hp & Hc).
    set (e := (Z.log2 a - 52)%Z) in *.
    assert (Hq : (1 <= a / 2 ^ e)%Z).
    { apply Z.div_le_lower_bound; [exact Hp |].
      rewrite Z.mul_1_r.
      assert (2 ^ e <= 2 ^ Z.log2 a)%Z.
      { apply Z.pow_le_mono_r; unfold e; lia. }
      assert (2 ^ Z.log2 a <= a)%Z
        by (apply Z.log2_spec; unfold two53 in Hs; lia).
      lia. }
    generalize dependent (a / 2 ^ e)%Z. generalize dependent (2 ^ e)%Z.
    intros p Hp q Hc Hq.
    assert (0 < q * p /\ 0 < (q + 1) * p)%Z as [H1 H2]
      by (split; apply Z.mul_pos_pos; lia).
    destruct Hc as [Hc | Hc]; rewrite Hc; lia.
Qed.

(** A double above 2^53 is a multiple of every power of two up to its
    unit in the last place. *)
Lemma double_multiple (t : Z) (e : Z) :
  (two53 < t)%Z -> round53 t = t -> (0 <= e <= Z.log2 t - 52)%Z ->
  (t mod 2 ^ e = 0)%Z.
Proof.
  intros Ht Hr He.
  destruct (round53_cases Ht) as (_ & _ & Hc).
  set (et := (Z.log2 t - 52)%Z) in *.
  assert (Hsplit : (2 ^ et = 2 ^ (et - e) * 2 ^ e)%Z).
  { rewrite <- Z.pow_add_r by lia. f_equal. lia. }
  rewrite Hr in Hc.
  destruct Hc as [Hc | Hc]; rewrite Hc, Hsplit, Z.mul_assoc;
    apply Z.mod_mul; apply Z.pow_nonzero; lia.
Qed.

Lemma is_double_round53 (t : Z) :
  (0 <= t)%Z -> is_double t = true -> round53 t = t.
Proof.
  intros Ht. unfold is_double, double_of.
  rewrite (Z.abs_eq t) by exact Ht.
  destruct (2 ^ 1024 <=? round53 t)%Z.
  - destruct (t <? 0)%Z; discriminate.
  - intros H. apply Z.eqb_eq in H.
    destruct (Z.eq_dec t 0) as [-> | Hn]; [reflexivity |].
    rewrite Z.sgn_pos in H by lia. lia.
Qed.

(** Taking 1 from a double never rounds above it. *)
Lemma round53_minus_one (t : Z) :
  (0 < t)%Z -> round53 t = t -> (round53 (t - 1) <= t)%Z.
Proof.
  intros Ht Hr.
  destruct (Z.leb_spec (t - 1) two53) as [Hs | Hs].
  - rewrite round53_small by exact Hs. lia.
  - destruct (round53_cases Hs) as (He & Hp & Hc).
    set (e := (Z.log2 (t - 1) - 52)%Z) in *.
    assert (Hm : (t mod 2 ^ e = 0)%Z).
    { apply double_multiple; [lia | exact Hr |].
      split; [lia |]. unfold e.
      assert (Z.log2 (t - 1) <= Z.log2 t)%Z by (apply Z.log2_le_mono; lia).
      lia. }
    pose proof (Z.div_mod t (2 ^ e)) as Hd.
    rewrite Hm in Hd.
    pose proof (Z.div_mod (t - 1) (2 ^ e)) as Hd1.
    pose proof (Z.mod_pos_bound (t - 1) (2 ^ e) Hp) as Hb.
    assert (Hq : ((t - 1) / 2 ^ e < t / 2 ^ e)%Z).
    { apply Z.div_lt_upper_bound; [exact Hp |]. lia. }
    destruct Hc as [Hc | Hc]; rewrite Hc; nia.
Qed.

(** [prev - 1] stays between 0 and [prev] ... *)
Lemma minus_one_bounds (t : Z) : (0 < t)%Z -> (0 <= minus_one t <= t)%Z.
Proof.
  intros Ht. unfold minus_one.
  destruct (is_double t) eqn:Hd; [| lia].
  pose proof (@is_double_round53 t ltac:(lia) Hd) as Hr.
  unfold double_of.
  rewrite (Z.abs_eq (t - 1)) by lia.
  destruct (2 ^ 1024 <=? round53 (t - 1))%Z; [destruct (t - 1 <? 0)%Z; lia |].
  pose proof (@round53_bounds (t - 1)%Z ltac:(lia)) as [H0 _].
  pose proof (round53_minus_one Ht Hr).
  destruct (Z.eq_dec (t - 1) 0) as [-> | Hn]; [cbn; lia |].
  rewrite Z.sgn_pos by lia. lia.
Qed.

(** ... and is exact up to 2^53. *)
Lemma minus_one_exact (t : Z) :
  (0 < t <= two53)%Z -> minus_one t = (t - 1)%Z.
Proof.
  intros Ht. unfold minus_one.
  rewrite double_of_small by lia.
  destruct (is_double t); reflexivity.
Qed.

(** A positive integer rounds to a positive double or to infinity. *)
Lemma double_of_positive (z : Z) :
  (0 < z)%Z ->
  double_of z = Infinity \/ exists r : Z, double_of z = Num r /\ (0 < r)%Z.
Proof.
  intros Hz. unfold double_of.
  rewrite (Z.abs_eq z) by lia.
  destruct (2 ^ 1024 <=? round53 z)%Z.
  - destruct (Z.ltb_spec z 0); [lia | now left].
  - right. eexists. split; [reflexivity |].
    rewrite Z.sgn_pos by exact Hz.
    pose proof (@round53_bounds z ltac:(lia)) as [_ H]. specialize (H Hz). lia.
Qed.

(** ** The countdown timer *)

Section TimerFacts.
Import TimerOverlay.

Variable durationSeconds : Z.

Lemma effect_idempotent (s : TimerState) : effect (effect s) = effect s.
Proof.
  unfold effect.
  destruct (isActive s && (0 <? timeLeft s)%Z) eqn:Hrun.
  - now rewrite Hrun.
  - destruct (timeLeft s =? 0)%Z eqn:Hzero; cbn.
    + now rewrite Hzero.
    + now rewrite Hrun, Hzero.
Qed.

Lemma step_preserves_invariant (s : TimerState) (e : TimerEvent) :
  (0 < durationSeconds)%Z ->
  timer_invariant durationSeconds s ->
  timer_invariant durationSeconds (step durationSeconds s e).
Proof.
  intros Hpos (Hrange & Hfin & Hact).
  destruct s as [t a f]; cbn in *.
  unfold timer_invariant, step, interval_running, rerender, effect,
    decrement, toggleTimer, resetTimer; cbn.
  assert (Hminus : (0 < t)%Z -> (0 <= minus_one t <= t)%Z)
    by apply minus_one_bounds.
  generalize dependent (minus_one t). intros r Hminus.
  destruct e, a, f; cbn;
    repeat match goal with
           | |- context [(?x <? ?y)%Z] => destruct (Z.ltb_spec x y)
           | |- context [(?x =? ?y)%Z] => destruct (Z.eqb_spec x y)
           | H : _ = true -> _ |- _ => specialize (H eq_refl)
           end; cbn;
    repeat split; intros; try discriminate; try lia;
    try (destruct Hfin as [H1 H2]; first [ specialize (H1 eq_refl) | idtac ]; lia);
    try (destruct Hfin as [H1 H2]; assert (false = true) by (apply H2; lia);
         discriminate).
Qed.

Lemma run_preserves_invariant (es : list TimerEvent) (s : TimerState) :
  (0 < durationSeconds)%Z ->
  timer_invariant durationSeconds s ->
  timer_invariant durationSeconds (run durationSeconds s es).
Proof.
  intros Hpos. revert s.
  induction es as [|e es IH]; intros s Hinv; cbn; [exact Hinv|].
  apply IH. now apply step_preserves_invariant.
Qed.

End TimerFacts.

Ltac timer_simpl :=
  cbn [TimerOverlay.timeLeft TimerOverlay.isActive TimerOverlay.isFinished
       negb Bool.eqb andb] in *.

(** C2, as the code has it.  The countdown as a step function over
    [timeLeft], [isActive], [isFinished].  A tick of a running timer
    ([isActive] and [timeLeft > 0]) never adds time, and while
    [timeLeft] is at most 2^53 it takes exactly 1 from [timeLeft] and
    changes nothing else while time remains; the tick that reaches 0,
    and more generally the effect at [timeLeft = 0], makes the timer
    finished and inactive.  No interval is installed for a timer that is
    paused or has no time left: a tick changes nothing there.
    [toggleTimer] pauses an active timer, resumes a paused one and
    restarts a finished one from the full [durationSeconds];
    [resetTimer] gives [durationSeconds], inactive, not finished.  On the
    states of an open timer with a positive duration the effect that
    follows a click changes nothing more. *)
Theorem countdown_timer_steps (durationSeconds : Z) (s : TimerOverlay.TimerState) :
  let step := TimerOverlay.step durationSeconds in
  let toggleTimer := TimerOverlay.toggleTimer durationSeconds in
  let resetTimer := TimerOverlay.resetTimer durationSeconds in
  let timeLeft := TimerOverlay.timeLeft in
  let isActive := TimerOverlay.isActive in
  let isFinished := TimerOverlay.isFinished in
  (isActive s = true -> (0 < timeLeft s)%Z ->
   (0 <= timeLeft (step s TimerOverlay.Tick) <= timeLeft s)%Z) /\
  (isActive s = true -> (0 < timeLeft s <= two53)%Z ->
   timeLeft (step s TimerOverlay.Tick) = (timeLeft s - 1)%Z) /\
  (isActive s = true -> (1 < timeLeft s <= two53)%Z ->
   step s TimerOverlay.Tick
   = TimerOverlay.mkTimer (timeLeft s - 1) true (isFinished s)) /\
  (isActive s = true -> timeLeft s = 1%Z ->
   step s TimerOverlay.Tick = TimerOverlay.mkTimer 0 false true) /\
  (isActive s = false \/ (timeLeft s <= 0)%Z ->
   step s TimerOverlay.Tick = s) /\
  (timeLeft s = 0%Z ->
   TimerOverlay.effect s = TimerOverlay.mkTimer 0 false true) /\
  (isFinished s = false -> isActive s = true ->
   toggleTimer s = TimerOverlay.mkTimer (timeLeft s) false false) /\
  (isFinished s = false -> isActive s = false ->
   toggleTimer s = TimerOverlay.mkTimer (timeLeft s) true false) /\
  (isFinished s = true ->
   toggleTimer s = TimerOverlay.mkTimer durationSeconds true false) /\
  resetTimer s = TimerOverlay.mkTimer durationSeconds false false /\
  ((0 < durationSeconds)%Z -> timer_invariant durationSeconds s ->
   step s TimerOverlay.Toggle = toggleTimer s /\
   step s TimerOverlay.Reset = resetTimer s).
Proof.
  destruct s as [t a f]; cbn zeta.
  unfold TimerOverlay.step, TimerOverlay.interval_running,
    TimerOverlay.rerender, TimerOverlay.effect, TimerOverlay.decrement,
    TimerOverlay.toggleTimer, TimerOverlay.resetTimer, timer_invariant.
  cbn [TimerOverlay.timeLeft TimerOverlay.isActive TimerOverlay.isFinished].
  assert (Htick : forall r : Z, (0 < t)%Z -> (r = t - 1)%Z ->
            (if (t =? r)%Z && Bool.eqb true true
             then TimerOverlay.mkTimer r true f
             else if true && (0 <? r)%Z then TimerOverlay.mkTimer r true f
                  else if (r =? 0)%Z then TimerOverlay.mkTimer r false true
                       else TimerOverlay.mkTimer r true f)
            = (if (r =? 0)%Z then TimerOverlay.mkTimer 0 false true
               else TimerOverlay.mkTimer r true f)).
  { intros r Ht ->.
    destruct (Z.eqb_spec t (t - 1)); [lia|]. cbn [andb].
    destruct (Z.ltb_spec 0 (t - 1)); destruct (Z.eqb_spec (t - 1) 0);
      try lia; try reflexivity.
    rewrite e. reflexivity. }
  split; [|split; [|split; [|split; [|split; [|split; [|split; [|split;
    [|split; [|split]]]]]]]]].
  - intros -> Ht. cbn [andb].
    destruct (Z.ltb_spec 0 t); [|lia].
    pose proof (minus_one_bounds Ht) as Hb.
    generalize dependent (minus_one t). intros r Hb.
    destruct (Z.eqb_spec t r); cbn [Bool.eqb andb TimerOverlay.timeLeft]; [lia|].
    destruct (0 <? r)%Z; cbn [TimerOverlay.timeLeft]; [lia|].
    destruct (r =? 0)%Z; cbn [TimerOverlay.timeLeft]; lia.
  - intros -> Ht. cbn [andb].
    destruct (Z.ltb_spec 0 t); [|lia].
    rewrite (minus_one_exact Ht), Htick by lia.
    destruct (Z.eqb_spec (t - 1) 0) as [E|E]; cbn [TimerOverlay.timeLeft]; lia.
  - intros -> Ht. cbn [andb].
    destruct (Z.ltb_spec 0 t); [|lia].
    rewrite (@minus_one_exact t), Htick by lia.
    destruct (Z.eqb_spec (t - 1) 0); [lia|reflexivity].
  - intros -> ->. reflexivity.
  - intros [-> | Ht]; [reflexivity|].
    destruct (Z.ltb_spec 0 t); [lia|]. now rewrite andb_false_r.
  - intros ->. rewrite andb_false_r. reflexivity.
  - intros -> ->. reflexivity.
  - intros -> ->. reflexivity.
  - intros ->. reflexivity.
  - reflexivity.
  - intros Hpos (Hrange & Hfin & Hact). timer_simpl. split.
    + destruct f; timer_simpl.
      * assert (t = 0%Z) by (now apply Hfin). subst t.
        rewrite (Hact eq_refl). timer_simpl.
        destruct (Z.eqb_spec 0 durationSeconds); [lia|]. timer_simpl.
        destruct (Z.ltb_spec 0 durationSeconds); [reflexivity|lia].
      * assert (t <> 0%Z) by (intros E; apply Hfin in E; discriminate).
        rewrite Z.eqb_refl.
        destruct a; timer_simpl; [|destruct (Z.ltb_spec 0 t); [reflexivity|lia]].
        destruct (Z.eqb_spec t 0); [lia|reflexivity].
    + destruct (Z.eqb_spec t durationSeconds), a; timer_simpl;
        try reflexivity;
        destruct (Z.eqb_spec durationSeconds 0); try reflexivity; lia.
Qed.

Lemma countdown_timer_steps_witness :
  let s := TimerOverlay.mkTimer 2 true false in
  (TimerOverlay.isActive s = true /\ (0 < TimerOverlay.timeLeft s <= two53)%Z) /\
  TimerOverlay.timeLeft (TimerOverlay.step 2 s TimerOverlay.Tick) = 1%Z.
Proof.
  cbn zeta.
  assert (Hrange : (0 < 2 <= two53)%Z) by (vm_compute; split; congruence).
  split; [split; [reflexivity|exact Hrange]|].
  exact (proj1 (proj2 (countdown_timer_steps 2 (TimerOverlay.mkTimer 2 true false)))
               eq_refl Hrange).
Defined.

(** C2 fails as stated above 2^53: a running timer with 2^54 seconds
    left, which is a double, is not changed by a tick, because
    [prev - 1] rounds back to [prev]; [timeLeft] does not decrease. *)
Lemma tick_above_two53_keeps_time :
  let s := TimerOverlay.mkTimer 18014398509481984 true false in
  TimerOverlay.isActive s = true /\
  (0 < TimerOverlay.timeLeft s)%Z /\
  is_double (TimerOverlay.timeLeft s) = true /\
  TimerOverlay.step 18014398509481984 s TimerOverlay.Tick = s /\
  TimerOverlay.timeLeft (TimerOverlay.step 18014398509481984 s TimerOverlay.Tick)
  <> (TimerOverlay.timeLeft s - 1)%Z.
Proof.
  cbn zeta. vm_compute. repeat split; congruence.
Qed.

(** ** Trimming *)

Lemma trimStart_nil (s : jsstring) :
  trimStart s = [] <-> forallb is_space s = true.
Proof.
  induction s as [|c s IH]; cbn; [tauto|].
  destruct (is_space c); cbn; [exact IH|].
  split; discriminate.
Qed.

Lemma trimStart_head (s : jsstring) (c : N) (r : jsstring) :
  trimStart s = c :: r -> is_space c = false.
Proof.
  induction s as [|d s IH]; cbn; [discriminate|].
  destruct (is_space d) eqn:Hd; [exact IH|].
  intros E; injection E as -> _. exact Hd.
Qed.

Lemma forallb_rev {A : Type} (f : A -> bool) (l : list A) :
  forallb f (rev l) = forallb f l.
Proof.
  induction l as [|x l IH]; cbn; [reflexivity|].
  rewrite forallb_app, IH. cbn. rewrite andb_true_r. apply andb_comm.
Qed.

(** The trimmed string is empty exactly for a string of white space
    (the empty string included). *)
Lemma trim_nil (s : jsstring) :
  trim s = [] <-> forallb is_space s = true.
Proof.
  unfold trim, trimEnd.
  rewrite <- trimStart_nil.
  split.
  - intros E.
    assert (E' : trimStart (rev (trimStart s)) = []).
    { rewrite <- (rev_involutive (trimStart (rev (trimStart s)))), E.
      reflexivity. }
    apply trimStart_nil in E'. rewrite forallb_rev in E'.
    destruct (trimStart s) as [|c r] eqn:Hs; [reflexivity|].
    apply trimStart_head in Hs. cbn in E'. rewrite Hs in E'. discriminate.
  - intros ->. reflexivity.
Qed.

Lemma truthy_trim (s : jsstring) :
  truthy (trim s) = negb (forallb is_space s).
Proof.
  destruct (forallb is_space s) eqn:Hs.
  - apply trim_nil in Hs. now rewrite Hs.
  - destruct (trim s) eqn:Ht; [|reflexivity].
    apply trim_nil in Ht. congruence.
Qed.

(** ** The AI service functions *)

(** C5, as the code has it.  Each of the two service functions either
    returns the value [JSON.parse] gives for the text of the response
    (trimmed, and replaced by "[]" when blank), as it is, or throws an
    [Error] with its one fixed message; whatever the call to the service
    or [JSON.parse] throws, nothing else escapes. *)
Theorem service_returns_or_throws_fixed_message
        (json : Type) (JSON_parse : jsstring -> result json)
        (generateContent : result GenerateContentResponse) :
  ((exists (response : GenerateContentResponse) (v : json),
       generateContent = Returned response /\
       JSON_parse (jsonText_of response) = Returned v /\
       identifyIngredientsFromImage JSON_parse generateContent = Returned v)
   \/ identifyIngredientsFromImage JSON_parse generateContent
      = Thrown (ErrorObject
          (str "Failed to identify ingredients from the images. Please try clearer pictures.")))
  /\
  ((exists (response : GenerateContentResponse) (v : json),
       generateContent = Returned response /\
       JSON_parse (jsonText_of response) = Returned v /\
       fetchRecipesFromIngredients JSON_parse generateContent = Returned v)
   \/ fetchRecipesFromIngredients JSON_parse generateContent
      = Thrown (ErrorObject
          (str "Failed to generate recipes. The ingredients might not be suitable for common dishes.")))
  /\
  (forall e : thrown,
      identifyIngredientsFromImage JSON_parse generateContent = Thrown e ->
      e = ErrorObject identify_failure)
  /\
  (forall e : thrown,
      fetchRecipesFromIngredients JSON_parse generateContent = Thrown e ->
      e = ErrorObject recipes_failure).
Proof.
  unfold identifyIngredientsFromImage, fetchRecipesFromIngredients,
    try_catch, bind.
  destruct generateContent as [response|e0].
  - destruct (JSON_parse (jsonText_of response)) as [v|e1] eqn:Hparse.
    + split; [left; exists response, v; auto|].
      split; [left; exists response, v; auto|].
      split; intros e H; discriminate H.
    + split; [now right|]. split; [now right|].
      split; intros e H; injection H as <-; reflexivity.
  - split; [now right|]. split; [now right|].
    split; intros e H; injection H as <-; reflexivity.
Qed.

(** C5 fails as stated: when the text of the response is the JSON
    literal [null], both functions return null, which is no list of
    records, and neither throws. *)
Lemma null_is_returned_unchecked :
  let response := mkResponse (Some (str "null")) in
  identifyIngredientsFromImage parse_literal (Returned response)
  = Returned JNull /\
  is_ingredient_array JNull = false /\
  fetchRecipesFromIngredients parse_literal (Returned response)
  = Returned JNull /\
  is_recipe_array JNull = false.
Proof.
  cbn zeta. repeat split.
Qed.

Lemma jsonText_of_blank (response : GenerateContentResponse) :
  blank_response response = true -> jsonText_of response = str "[]".
Proof.
  unfold blank_response, jsonText_of.
  destruct (text response) as [t|]; [|reflexivity].
  intros Hb. now rewrite truthy_trim, Hb.
Qed.

(** C10. When the response has no text, or only white space, the text
    handed to [JSON.parse] is the literal "[]" and both functions return
    the empty list instead of throwing; the application then goes to the
    error state with the "No ingredients could be identified" message,
    not to the review screen.  That [JSON.parse("[]")] is the empty
    array is the hypothesis on the parser. *)
Theorem blank_response_gives_empty_list
        (parse_ingredients : jsstring -> result (list Ingredient))
        (parse_recipes : jsstring -> result (list Recipe))
        (response : GenerateContentResponse) (s : App.State) :
  parse_ingredients (str "[]") = Returned [] ->
  parse_recipes (str "[]") = Returned [] ->
  blank_response response = true ->
  jsonText_of response = str "[]" /\
  identifyIngredientsFromImage parse_ingredients (Returned response)
  = Returned [] /\
  fetchRecipesFromIngredients parse_recipes (Returned response)
  = Returned [] /\
  let s' := App.handle parse_ingredients parse_recipes
                       (App.AnalyzeSettled (Returned response)) s in
  App.loadingState s' = ERROR /\
  App.error s'
  = Some (str "No ingredients could be identified. Please try clearer pictures with well-lit ingredients.").
Proof.
  intros Hi Hr Hb.
  pose proof (jsonText_of_blank response Hb) as Hj.
  unfold identifyIngredientsFromImage, fetchRecipesFromIngredients,
    try_catch, bind.
  cbn [App.handle].
  unfold identifyIngredientsFromImage, try_catch, bind.
  rewrite Hj, Hi, Hr.
  repeat split.
Qed.

Lemma blank_response_gives_empty_list_witness :
  let response := mkResponse (Some (str "  ")) in
  (blank_response response = true) /\
  identifyIngredientsFromImage (@parse_empty_array Ingredient)
                               (Returned response)
  = Returned [].
Proof.
  cbn zeta. split; [reflexivity|].
  apply (blank_response_gives_empty_list
           parse_empty_array parse_empty_array
           (mkResponse (Some (str "  "))) App.initial);
    reflexivity.
Defined.

(** ** The session *)

(** C6. [handleReset] puts every cell of the session back to its initial
    value: the lists of images, ingredients and recipes are empty, the
    error is null, servings is 1, cuisine is "Open", the pending input
    is empty and the view is idle (the camera is stopped as well; the
    stored install prompt is not part of the session and is kept).
    Resetting twice is the same as resetting once. *)
Theorem handleReset_restores_initial (s : App.State) :
  App.images (App.handleReset s) = [] /\
  App.ingredients (App.handleReset s) = [] /\
  App.recipes (App.handleReset s) = [] /\
  App.error (App.handleReset s) = None /\
  App.servings (App.handleReset s) = 1%Z /\
  App.cuisine (App.handleReset s) = str "Open" /\
  App.newIngredientInput (App.handleReset s) = [] /\
  App.loadingState (App.handleReset s) = IDLE /\
  App.handleReset s = App.setDeferredPrompt (App.deferredPrompt s) App.initial /\
  App.handleReset (App.handleReset s) = App.handleReset s.
Proof.
  repeat split.
Qed.



(** C8. The serving count is at least 1 in every reachable state: it is 1
    initially, the increase button adds 1, the decrease button takes 1
    but stops at 1, and the reset puts 1 back. *)
Theorem servings_at_least_one
        (parse_ingredients : jsstring -> result (list Ingredient))
        (parse_recipes : jsstring -> result (list Recipe))
        (s : App.State) :
  App.reachable parse_ingredients parse_recipes s ->
  (1 <= App.servings s)%Z /\
  App.servings App.initial = 1%Z /\
  App.servings (App.increaseServings s) = (App.servings s + 1)%Z /\
  App.servings (App.decreaseServings s) = Z.max 1 (App.servings s - 1) /\
  (App.servings s = 1%Z -> App.servings (App.decreaseServings s) = 1%Z) /\
  App.servings (App.handleReset s) = 1%Z.
Proof.
  intros Hreach.
  assert (Hinv : (1 <= App.servings s)%Z).
  { induction Hreach as [|s s' e Hreach IH Hstep]; [cbn; lia|].
    destruct Hstep as [s e Hen].
    destruct e; cbn; try exact IH; try lia.
    - destruct getUserMedia; exact IH.
    - destruct frame; exact IH.
    - unfold App.handleAnalyze_begin. destruct (App.images s); exact IH.
    - unfold App.handleAnalyze_settled.
      destruct (identifyIngredientsFromImage parse_ingredients generateContent)
        as [[|x l]|err]; exact IH.
    - unfold App.addIngredient.
      destruct (truthy (trim (App.newIngredientInput s))); exact IH.
    - unfold App.handleGenerateRecipes_settled.
      destruct (fetchRecipesFromIngredients parse_recipes generateContent);
        exact IH.
    - destruct accepted; exact IH. }
  repeat split; try exact Hinv; cbn.
  - intros ->. reflexivity.
Qed.

Lemma servings_at_least_one_witness :
  let s := App.decreaseServings App.initial in
  App.reachable parse_empty_array parse_empty_array s /\
  (1 <= App.servings s)%Z.
Proof.
  cbn zeta.
  assert (Hreach : App.reachable (@parse_empty_array Ingredient)
                                 (@parse_empty_array Recipe)
                                 (App.decreaseServings App.initial)).
  { apply (@App.reachable_step _ _ App.initial _ App.DecreaseServings).
    - apply App.reachable_initial.
    - apply (@App.step_event _ _ App.initial App.DecreaseServings). reflexivity. }
  split; [exact Hreach|].
  exact (proj1 (servings_at_least_one Hreach)).
Defined.

(** ** The view-state machine *)

(** C3, as the code has it.  A step of the session that is taken by a
    control either keeps the view state or follows one of the edges of
    [action_edge]: idle (or error, which shows the same start screen) to
    capturing, capturing back to idle on cancel or capture, idle (or
    error) to analyzing, reviewing to fetching, and the reset from
    reviewing or showing-results to idle.  A step that is the settling
    of an awaited call sets the view state whatever it is by then: a
    refused camera gives error (a granted one keeps the view state), an
    identification gives reviewing, or error when it fails or finds
    nothing, and a generation gives showing-results, or error when it
    fails.  So capturing and analyzing are entered from idle or error
    only, fetching from reviewing only (never from idle), error by a
    failed settlement only, and a step from analyzing to showing-results
    is the settling of a generation. *)
Theorem view_state_transitions
        (parse_ingredients : jsstring -> result (list Ingredient))
        (parse_recipes : jsstring -> result (list Recipe))
        (s s' : App.State) (e : App.Event) :
  App.step parse_ingredients parse_recipes s e s' ->
  let a := App.loadingState s in
  let b := App.loadingState s' in
  (b = a \/
   (is_settlement e = false /\ action_edge a b = true) \/
   (is_settlement e = true /\ settlement_target e b = true)) /\
  (settled_failure parse_ingredients parse_recipes e = true -> b = ERROR) /\
  (settled_failure parse_ingredients parse_recipes e = false ->
   match e with
   | App.CameraSettled _ => b = a
   | App.AnalyzeSettled _ => b = REVIEW_INGREDIENTS
   | App.GenerateSettled _ => b = SHOWING_RESULTS
   | _ => True
   end) /\
  (b = ERROR ->
   a = ERROR \/ settled_failure parse_ingredients parse_recipes e = true) /\
  (b = CAPTURING -> a = CAPTURING \/ a = IDLE \/ a = ERROR) /\
  (b = ANALYZING -> a = ANALYZING \/ a = IDLE \/ a = ERROR) /\
  (b = FETCHING_RECIPES -> a = FETCHING_RECIPES \/ a = REVIEW_INGREDIENTS) /\
  ~ (a = IDLE /\ b = FETCHING_RECIPES) /\
  (a = ANALYZING -> b = SHOWING_RESULTS ->
   exists generateContent, e = App.GenerateSettled generateContent).
Proof.
  intros Hstep. destruct Hstep as [s e Hen]. cbn zeta.
  unfold App.enabled in Hen.
  destruct e; cbn [App.handle is_settlement settlement_target settled_failure].
  all: try (destruct getUserMedia).
  all: try (destruct frame).
  all: try (destruct accepted).
  all: try (unfold App.handleAnalyze_settled;
            destruct (identifyIngredientsFromImage parse_ingredients
                        generateContent) as [[|x l]|err]).
  all: try (unfold App.handleGenerateRecipes_settled;
            destruct (fetchRecipesFromIngredients parse_recipes
                        generateContent)).
  all: try (unfold App.handleAnalyze_begin; destruct (App.images s)).
  all: try (unfold App.addIngredient;
            destruct (truthy (trim (App.newIngredientInput s)))).
  all: destruct (App.loadingState s) eqn:Hl; cbn in Hen; try discriminate Hen.
  all: unfold App.reader_onerror; cbn; rewrite ?Hl.
  all: repeat split;
    try solve [ intros; discriminate
              | intros; congruence
              | intros [? ?]; discriminate
              | auto
              | intros; eauto ].
Qed.

Lemma view_state_transitions_witness :
  let s := App.initial in
  App.step parse_empty_array parse_empty_array s App.StartCamera
           (App.handleStartCamera_begin s) /\
  action_edge (App.loadingState s)
              (App.loadingState (App.handleStartCamera_begin s)) = true.
Proof.
  cbn zeta.
  assert (Hstep : App.step (@parse_empty_array Ingredient)
                           (@parse_empty_array Recipe)
                           App.initial App.StartCamera
                           (App.handleStartCamera_begin App.initial)).
  { apply (@App.step_event _ _ App.initial App.StartCamera). reflexivity. }
  split; [exact Hstep|].
  destruct (proj1 (view_state_transitions Hstep)) as [H|[[_ H]|[H _]]];
    [discriminate H | exact H | discriminate H].
Defined.

(** C3 fails as stated: with one uploaded image staged, the session is
    idle, "Scan Ingredients" is drawn, and [handleAnalyze] takes the
    session from idle directly to analyzing, which skips the capturing
    stage and is none of the claimed exceptions. *)
Lemma idle_to_analyzing_skips_capturing :
  let s := App.reader_onload (str "data:image/jpeg;base64,AA==") App.initial in
  App.reachable parse_empty_array parse_empty_array s /\
  App.step parse_empty_array parse_empty_array s App.Analyze
           (App.handleAnalyze_begin s) /\
  App.loadingState s = IDLE /\
  App.loadingState (App.handleAnalyze_begin s) = ANALYZING /\
  claimed_edge IDLE ANALYZING = false.
Proof.
  cbn zeta. split; [|split; [|repeat split]].
  - apply (@App.reachable_step _ _ App.initial _
             (App.ReaderLoad (str "data:image/jpeg;base64,AA=="))).
    + apply App.reachable_initial.
    + apply (@App.step_event _ _ App.initial
               (App.ReaderLoad (str "data:image/jpeg;base64,AA=="))).
      reflexivity.
  - apply (@App.step_event _ _
             (App.reader_onload (str "data:image/jpeg;base64,AA==") App.initial)
             App.Analyze).
    reflexivity.
Qed.

(** ** Errors of the file reader *)

(** C4 at a failing read.  [handleFileChange] installs no [onerror]
    listener, so when the reader fails the session is left as it was: it
    is not put in the error state and no message is set, here from the
    initial state.  The camera and the two service calls do set the
    error state and a message. *)
Theorem reader_error_is_not_surfaced
        (parse_ingredients : jsstring -> result (list Ingredient))
        (parse_recipes : jsstring -> result (list Recipe)) :
  let s' := App.handle parse_ingredients parse_recipes App.ReaderError
                       App.initial in
  App.enabled App.initial App.ReaderError = true /\
  s' = App.initial /\
  App.loadingState s' <> ERROR /\
  App.error s' = None /\
  (forall (e : thrown) (s : App.State),
      let c := App.handle parse_ingredients parse_recipes
                          (App.CameraSettled (Thrown e)) s in
      let a := App.handle parse_ingredients parse_recipes
                          (App.AnalyzeSettled (Thrown e)) s in
      let g := App.handle parse_ingredients parse_recipes
                          (App.GenerateSettled (Thrown e)) s in
      (App.loadingState c = ERROR /\ App.error c = Some App.camera_failure) /\
      (App.loadingState a = ERROR /\ App.error a = Some identify_failure) /\
      (App.loadingState g = ERROR /\ App.error g = Some recipes_failure)).
Proof.
  cbn. repeat split; discriminate.
Qed.

(* ================================================================== *)
(** * The matcher against a declarative reading of the pattern *)
(* ================================================================== *)

Section MatcherFacts.

Variable text : jsstring.

Lemma Matches_range (r : regex) (i j : nat) (c c' : captures) :
  Matches text r i c j c' -> i <= j /\ (i < j -> j <= List.length text).
Proof.
  induction 1; try lia.
  assert (i < List.length text) by (apply nth_error_Some; congruence). lia.
Qed.

Lemma rmatch_star (r1 : regex) (i : nat) (c : captures) (k : continuation) :
  rmatch text (RStar r1) i c k = star_loop text r1 k (List.length text - i) i c.
Proof. reflexivity. Qed.

(** Soundness: a successful run of the matcher went through a match of
    the pattern and then through its continuation. *)
Lemma rmatch_sound (r : regex) :
  forall (i : nat) (c : captures) (k : continuation) (x : nat * captures),
    rmatch text r i c k = Some x ->
    exists (j : nat) (c' : captures), Matches text r i c j c' /\ k j c' = Some x.
Proof.
  induction r as [|cls| |r1 IH1 r2 IH2|r1 IH1 r2 IH2|r1 IH1|r1 IH1|n r1 IH1];
    intros i c k x Hrun.
  - exists i, c. split; [constructor|exact Hrun].
  - cbn in Hrun. destruct (nth_error text i) as [ch|] eqn:Hch; [|discriminate].
    destruct (class_matches cls ch) eqn:Hcls; [|discriminate].
    exists (S i), c. split; [econstructor; eassumption|exact Hrun].
  - cbn in Hrun. destruct (is_word_boundary text i) eqn:Hb; [|discriminate].
    exists i, c. split; [now constructor|exact Hrun].
  - cbn in Hrun. apply IH1 in Hrun. destruct Hrun as (j & c' & H1 & Hrun).
    apply IH2 in Hrun. destruct Hrun as (j' & c'' & H2 & Hk).
    exists j', c''. split; [econstructor; eassumption|exact Hk].
  - cbn in Hrun. destruct (rmatch text r1 i c k) as [y|] eqn:Hleft.
    + injection Hrun as ->. apply IH1 in Hleft.
      destruct Hleft as (j & c' & H1 & Hk).
      exists j, c'. split; [now apply M_alt_l|exact Hk].
    + apply IH2 in Hrun. destruct Hrun as (j & c' & H2 & Hk).
      exists j, c'. split; [now apply M_alt_r|exact Hk].
  - cbn [rmatch] in Hrun.
    destruct (rmatch text r1 i c (fun j c' => if i <? j then k j c' else None))
      as [y|] eqn:Htake.
    + injection Hrun as ->. apply IH1 in Htake.
      destruct Htake as (j & c' & H1 & Hk).
      destruct (Nat.ltb_spec i j); [|discriminate].
      exists j, c'. split; [now apply M_opt_some|exact Hk].
    + exists i, c. split; [apply M_opt_none|exact Hrun].
  - rewrite rmatch_star in Hrun.
    generalize dependent (List.length text - i). intros bound.
    revert i c.
    induction bound as [|bound IHb]; intros i0 c0 Hrun.
    + exists i0, c0. split; [apply M_star_nil|exact Hrun].
    + cbn [star_loop] in Hrun.
      destruct (rmatch text r1 i0 c0
                  (fun j c' => if i0 <? j then star_loop text r1 k bound j c' else None))
        as [y|] eqn:Hiter.
      * injection Hrun as ->. apply IH1 in Hiter.
        destruct Hiter as (j & c' & H1 & Hk).
        destruct (Nat.ltb_spec i0 j); [|discriminate].
        apply IHb in Hk. destruct Hk as (j' & c'' & H2 & Hk).
        exists j', c''. split; [eapply M_star_cons; eassumption|exact Hk].
      * exists i0, c0. split; [apply M_star_nil|exact Hrun].
  - cbn in Hrun. apply IH1 in Hrun. destruct Hrun as (j & c' & H1 & Hk).
    exists j, (set_capture n (i, j) c'). split; [now constructor|exact Hk].
Qed.

(** Completeness: if the pattern can match from [i] so that the
    continuation succeeds, the matcher does not fail. *)
Lemma star_loop_complete (r1 : regex) (k : continuation)
      (IH1 : forall i c j c' k', Matches text r1 i c j c' -> k' j c' <> None ->
                                 rmatch text r1 i c k' <> None) :
  forall (bound i : nat) (c : captures) (j : nat) (c' : captures),
    List.length text - i <= bound ->
    Matches text (RStar r1) i c j c' -> k j c' <> None ->
    star_loop text r1 k bound i c <> None.
Proof.
  induction bound as [|bound IHb]; intros i c j c' Hbound Hm Hk.
  - cbn. inversion Hm; subst; [exact Hk|].
    match goal with H : Matches text r1 _ _ _ _ |- _ =>
      apply Matches_range in H end. lia.
  - cbn [star_loop].
    destruct (rmatch text r1 i c
                (fun j0 c0 => if i <? j0 then star_loop text r1 k bound j0 c0 else None))
      as [y|] eqn:Hiter; [discriminate|].
    inversion Hm; subst; [exact Hk|].
    exfalso. revert Hiter.
    match goal with H : Matches text r1 _ _ ?m ?cm |- _ =>
      apply (IH1 _ _ m cm); [exact H|] end.
    match goal with H : i < ?m |- _ =>
      destruct (Nat.ltb_spec i m); [|lia] end.
    eapply IHb; [|eassumption|exact Hk]. lia.
Qed.

Lemma rmatch_complete (r : regex) :
  forall (i : nat) (c : captures) (j : nat) (c' : captures) (k : continuation),
    Matches text r i c j c' -> k j c' <> None -> rmatch text r i c k <> None.
Proof.
  induction r as [|cls| |r1 IH1 r2 IH2|r1 IH1 r2 IH2|r1 IH1|r1 IH1|n r1 IH1];
    intros i c j c' k Hm Hk; inversion Hm; subst.
  - exact Hk.
  - cbn [rmatch].
    match goal with H : nth_error _ _ = _ |- _ => rewrite H end.
    match goal with H : class_matches _ _ = _ |- _ => rewrite H end.
    exact Hk.
  - cbn [rmatch].
    match goal with H : is_word_boundary _ _ = _ |- _ => rewrite H end.
    exact Hk.
  - cbn [rmatch]. eapply IH1; [eassumption|]. eapply IH2; eassumption.
  - cbn [rmatch]. destruct (rmatch text r1 i c k) eqn:Hleft; [discriminate|].
    exfalso. revert Hleft. eapply IH1; eassumption.
  - cbn [rmatch]. destruct (rmatch text r1 i c k) eqn:Hleft; [discriminate|].
    eapply IH2; eassumption.
  - cbn [rmatch].
    destruct (rmatch text r1 i c (fun j0 c0 => if i <? j0 then k j0 c0 else None))
      eqn:Htake; [discriminate|].
    exfalso. revert Htake. eapply IH1; [eassumption|].
    destruct (Nat.ltb_spec i j); [exact Hk|lia].
  - cbn [rmatch].
    destruct (rmatch text r1 j c' (fun j0 c0 => if j <? j0 then k j0 c0 else None));
      [discriminate|exact Hk].
  - rewrite rmatch_star.
    eapply star_loop_complete; [exact IH1| |exact Hm|exact Hk]. lia.
  - rewrite rmatch_star.
    eapply star_loop_complete; [exact IH1| |exact Hm|exact Hk]. lia.
  - cbn [rmatch]. eapply IH1; eassumption.
Qed.

End MatcherFacts.

(** ** Substrings *)

Lemma skipn_nth_error {A : Type} (l : list A) (i : nat) (x : A) :
  nth_error l i = Some x -> skipn i l = x :: skipn (S i) l.
Proof.
  revert l. induction i as [|i IH]; intros [|y l] H; try discriminate.
  - now injection H as ->.
  - cbn in H. apply IH in H. exact H.
Qed.

Lemma substring_empty (text : jsstring) (a : nat) : substring text a a = [].
Proof. unfold substring. now rewrite Nat.sub_diag. Qed.

Lemma substring_cons (text : jsstring) (i j : nat) (ch : N) :
  nth_error text i = Some ch -> i < j ->
  substring text i j = ch :: substring text (S i) j.
Proof.
  intros Hch Hlt. unfold substring.
  rewrite (skipn_nth_error _ _ Hch).
  replace (j - i) with (S (j - S i)) by lia. reflexivity.
Qed.

Lemma firstn_plus {A : Type} (n m : nat) (l : list A) :
  firstn (n + m) l = firstn n l ++ firstn m (skipn n l).
Proof.
  revert l. induction n as [|n IH]; intros l; [reflexivity|].
  destruct l as [|x l]; cbn.
  - now rewrite firstn_nil.
  - now rewrite IH.
Qed.

Lemma substring_app (text : jsstring) (a b c : nat) :
  a <= b -> b <= c ->
  substring text a c = substring text a b ++ substring text b c.
Proof.
  intros Hab Hbc. unfold substring.
  replace (c - a) with ((b - a) + (c - b)) by lia.
  rewrite firstn_plus, skipn_skipn.
  replace (b - a + a) with b by lia. reflexivity.
Qed.

Lemma substring_length (text : jsstring) (a b : nat) :
  a <= b -> b <= List.length text -> List.length (substring text a b) = b - a.
Proof.
  intros Hab Hb. unfold substring.
  rewrite length_firstn, length_skipn. lia.
Qed.

Lemma substring_prefix (text : jsstring) (b : nat) :
  substring text 0 b = firstn b text.
Proof. unfold substring. now rewrite Nat.sub_0_r. Qed.

Lemma substring_to_end (text : jsstring) (a : nat) :
  substring text a (List.length text) = substring_from text a.
Proof.
  unfold substring, substring_from.
  apply firstn_all2. rewrite length_skipn. lia.
Qed.

(** ** Letter case *)

Lemma in_range_spec (lo hi c : N) :
  in_range lo hi c = true <-> (lo <= c /\ c <= hi)%N.
Proof.
  unfold in_range. rewrite andb_true_iff, !N.leb_le. tauto.
Qed.

Lemma in_range_false (lo hi c : N) :
  in_range lo hi c = false <-> (c < lo \/ hi < c)%N.
Proof.
  unfold in_range. rewrite andb_false_iff, !N.leb_gt. tauto.
Qed.

(** Against a lower-case letter, equality under [canonicalize] and
    equality after [toLowerCase] are the same. *)
Lemma canonicalize_lower_iff (ch c : N) :
  is_lower c = true ->
  (canonicalize ch = canonicalize c <-> toLowerCase_unit ch = c).
Proof.
  unfold is_lower, canonicalize, toLowerCase_unit. intros Hc.
  rewrite Hc. apply in_range_spec in Hc.
  destruct (in_range 97 122 ch) eqn:H1; destruct (in_range 65 90 ch) eqn:H2;
    rewrite ?in_range_spec, ?in_range_false in *; lia.
Qed.

Lemma canonicalize_lower_word (s w : jsstring) :
  forallb is_lower w = true ->
  (map canonicalize s = map canonicalize w <-> toLowerCase s = w).
Proof.
  unfold toLowerCase. revert s.
  induction w as [|c w IH]; intros [|ch s] Hw; cbn; try (split; discriminate);
    [tauto|].
  cbn in Hw. apply andb_true_iff in Hw. destruct Hw as [Hc Hw].
  specialize (IH s Hw). pose proof (@canonicalize_lower_iff ch c Hc) as Hch.
  split; intros E; injection E as E1 E2; f_equal; tauto.
Qed.

(** ** The pieces of the pattern *)

Section PatternFacts.

Variable text : jsstring.

Lemma Matches_set_inv (cls : char_class) (i j : nat) (c c' : captures) :
  Matches text (RSet cls) i c j c' ->
  j = S i /\ c' = c /\
  exists ch, nth_error text i = Some ch /\ class_matches cls ch = true.
Proof.
  intros H. inversion H; subst. repeat split. now exists ch.
Qed.

Lemma Matches_star_set_inv (cls : char_class) (i j : nat) (c c' : captures) :
  Matches text (RStar (RSet cls)) i c j c' ->
  c' = c /\ i <= j /\ (i < j -> j <= List.length text) /\
  forallb (class_matches cls) (substring text i j) = true.
Proof.
  intros H. remember (RStar (RSet cls)) as r eqn:Hr.
  induction H; try discriminate; injection Hr as ->.
  - rewrite substring_empty. repeat split; lia.
  - apply Matches_set_inv in H. destruct H as (-> & -> & ch & Hch & Hcls).
    destruct (IHMatches2 eq_refl) as (-> & Hle & Hlen & Hall).
    repeat split; try lia.
    + intros _. destruct (Nat.eq_dec (S i) k) as [<-|Hne]; [|lia].
      assert (i < List.length text) by (apply nth_error_Some; congruence). lia.
    + rewrite (substring_cons _ Hch) by lia. cbn. now rewrite Hcls, Hall.
Qed.

Lemma star_set_Matches (cls : char_class) (c : captures) (j : nat) :
  j <= List.length text ->
  forall (n i : nat),
    j - i = n -> i <= j ->
    forallb (class_matches cls) (substring text i j) = true ->
    Matches text (RStar (RSet cls)) i c j c.
Proof.
  intros Hj. induction n as [|n IH]; intros i Hn Hle Hall.
  - replace j with i by lia. apply M_star_nil.
  - destruct (nth_error text i) as [ch|] eqn:Hch.
    2:{ apply nth_error_None in Hch. lia. }
    rewrite (substring_cons _ Hch) in Hall by lia. cbn in Hall.
    apply andb_true_iff in Hall. destruct Hall as [Hcls Hall].
    eapply M_star_cons.
    + eapply M_set; eassumption.
    + lia.
    + apply IH; [lia|lia|exact Hall].
Qed.

(** [\d+] *)
Lemma Matches_digits1_inv (i j : nat) (c c' : captures) :
  Matches text digits1 i c j c' ->
  c' = c /\ i < j /\ j <= List.length text /\
  forallb is_digit (substring text i j) = true.
Proof.
  intros H. inversion H; subst.
  match goal with H : Matches _ (RSet _) _ _ _ _ |- _ =>
    apply Matches_set_inv in H; destruct H as (-> & -> & ch & Hch & Hcls) end.
  match goal with H : Matches _ (RStar _) _ _ _ _ |- _ =>
    apply Matches_star_set_inv in H; destruct H as (-> & Hle & Hlen & Hall) end.
  assert (i < List.length text) by (apply nth_error_Some; congruence).
  repeat split; try lia.
  rewrite (substring_cons _ Hch) by lia.
  change (class_matches Digit) with is_digit in *.
  cbn [forallb]. now rewrite Hcls, Hall.
Qed.

Lemma digits1_Matches (i j : nat) (c : captures) :
  i < j -> j <= List.length text ->
  forallb is_digit (substring text i j) = true ->
  Matches text digits1 i c j c.
Proof.
  intros Hlt Hj Hall.
  destruct (nth_error text i) as [ch|] eqn:Hch.
  2:{ apply nth_error_None in Hch. lia. }
  rewrite (substring_cons _ Hch) in Hall by lia. cbn [forallb] in Hall.
  apply andb_true_iff in Hall. destruct Hall as [Hcls Hall].
  eapply M_seq.
  - eapply M_set; eassumption.
  - apply (@star_set_Matches Digit c j Hj (j - S i)); [lia|lia|exact Hall].
Qed.

(** A literal word. *)
Lemma Matches_word_inv (w : jsstring) :
  forall (i j : nat) (c c' : captures),
    Matches text (RWord w) i c j c' ->
    c' = c /\ j = i + List.length w /\
    (i < j -> j <= List.length text) /\
    map canonicalize (substring text i j) = map canonicalize w.
Proof.
  induction w as [|x w IH]; intros i j c c' H; cbn in H; inversion H; subst.
  - rewrite substring_empty. cbn. repeat split; lia.
  - match goal with H : Matches _ (RSet _) _ _ _ _ |- _ =>
      apply Matches_set_inv in H; destruct H as (-> & -> & ch & Hch & Hcls) end.
    match goal with H : Matches _ (RWord _) _ _ _ _ |- _ =>
      apply IH in H; destruct H as (-> & -> & Hlen & Hmap) end.
    assert (i < List.length text) by (apply nth_error_Some; congruence).
    cbn in Hcls. apply N.eqb_eq in Hcls.
    repeat split; cbn [List.length]; try lia.
    rewrite (substring_cons _ Hch) by lia. cbn [map]. now rewrite Hcls, Hmap.
Qed.

Lemma word_Matches (w : jsstring) (c : captures) :
  forall (i : nat),
    i + List.length w <= List.length text ->
    map canonicalize (substring text i (i + List.length w)) = map canonicalize w ->
    Matches text (RWord w) i c (i + List.length w) c.
Proof.
  induction w as [|x w IH]; intros i Hlen Hmap; cbn in *.
  - rewrite Nat.add_0_r. apply M_empty.
  - destruct (nth_error text i) as [ch|] eqn:Hch.
    2:{ apply nth_error_None in Hch. lia. }
    rewrite (substring_cons _ Hch) in Hmap by lia. cbn in Hmap.
    injection Hmap as Hx Hmap.
    replace (i + S (List.length w)) with (S i + List.length w) in * by lia.
    eapply M_seq.
    + eapply M_set; [exact Hch|]. cbn. now apply N.eqb_eq.
    + apply IH; [lia|exact Hmap].
Qed.

End PatternFacts.

Section InversionFacts.

Variable text : jsstring.

Lemma Matches_seq_inv (r1 r2 : regex) (i k : nat) (c c'' : captures) :
  Matches text (RSeq r1 r2) i c k c'' ->
  exists j c', Matches text r1 i c j c' /\ Matches text r2 j c' k c''.
Proof. intros H. inversion H; subst. eauto. Qed.

Lemma Matches_alt_inv (r1 r2 : regex) (i j : nat) (c c' : captures) :
  Matches text (RAlt r1 r2) i c j c' ->
  Matches text r1 i c j c' \/ Matches text r2 i c j c'.
Proof. intros H. inversion H; subst; auto. Qed.

Lemma Matches_opt_inv (r : regex) (i j : nat) (c c' : captures) :
  Matches text (ROpt r) i c j c' ->
  (Matches text r i c j c' /\ i < j) \/ (j = i /\ c' = c).
Proof. intros H. inversion H; subst; auto. Qed.

Lemma Matches_group_inv (n : nat) (r : regex) (i j : nat) (c c' : captures) :
  Matches text (RGroup n r) i c j c' ->
  exists c1, Matches text r i c j c1 /\ c' = set_capture n (i, j) c1.
Proof. intros H. inversion H; subst. eauto. Qed.

Lemma Matches_wordb_inv (i j : nat) (c c' : captures) :
  Matches text RWordB i c j c' ->
  j = i /\ c' = c /\ is_word_boundary text i = true.
Proof. intros H. inversion H; subst. auto. Qed.

Lemma app_eq_length {A : Type} (l1 l2 w1 w2 : list A) :
  l1 ++ l2 = w1 ++ w2 -> List.length l1 = List.length w1 ->
  l1 = w1 /\ l2 = w2.
Proof.
  revert w1. induction l1 as [|x l1 IH]; intros [|y w1] E Hlen;
    try discriminate; cbn in *; [auto|].
  injection E as -> E. injection Hlen as Hlen.
  destruct (IH w1 E Hlen) as [-> ->]. auto.
Qed.

Lemma toLowerCase_length (s : jsstring) :
  List.length (toLowerCase s) = List.length s.
Proof. apply length_map. Qed.

Lemma Matches_pluralw_inv (word : jsstring) (i j : nat) (c c' : captures) :
  forallb is_lower word = true -> word <> [] ->
  Matches text (pluralw word) i c j c' ->
  c' = c /\ i < j /\ j <= List.length text /\
  (toLowerCase (substring text i j) = word \/
   toLowerCase (substring text i j) = word ++ [115%N]).
Proof.
  intros Hlow Hne H. unfold pluralw in H.
  apply Matches_seq_inv in H. destruct H as (m & c1 & Hw & Ho).
  apply Matches_word_inv in Hw. destruct Hw as (-> & -> & Hlen & Hmap).
  assert (Hpos : 0 < List.length word) by (destruct word; [congruence|cbn; lia]).
  apply canonicalize_lower_word in Hmap; [|exact Hlow].
  apply Matches_opt_inv in Ho. destruct Ho as [[Hs _]|[-> ->]].
  - apply Matches_set_inv in Hs. destruct Hs as (-> & -> & ch & Hch & Hcls).
    assert (i + List.length word < List.length text)
      by (apply nth_error_Some; congruence).
    repeat split; try lia. right.
    rewrite (@substring_app text i (i + List.length word) (S (i + List.length word)))
      by lia.
    rewrite (substring_cons _ Hch) by lia. rewrite substring_empty.
    unfold toLowerCase in *. rewrite map_app, Hmap. cbn [map]. do 2 f_equal.
    cbn in Hcls. apply N.eqb_eq in Hcls.
    apply (@canonicalize_lower_iff ch 115%N); [reflexivity|exact Hcls].
  - repeat split; try lia. now left.
Qed.

Lemma pluralw_Matches (word : jsstring) (i j : nat) (c : captures) :
  forallb is_lower word = true ->
  i <= j -> j <= List.length text ->
  (toLowerCase (substring text i j) = word \/
   toLowerCase (substring text i j) = word ++ [115%N]) ->
  Matches text (pluralw word) i c j c.
Proof.
  intros Hlow Hle Hj [E|E].
  - assert (Hlen : j = i + List.length word).
    { rewrite <- E, toLowerCase_length, substring_length by lia. lia. }
    subst j. eapply M_seq; [|apply M_opt_none].
    apply word_Matches; [exact Hj|].
    now apply canonicalize_lower_word.
  - assert (Hlen : j = S (i + List.length word)).
    { apply (f_equal (@List.length N)) in E.
      rewrite toLowerCase_length, substring_length, length_app in E by lia.
      cbn in E. lia. }
    subst j.
    rewrite (@substring_app text i (i + List.length word)) in E by lia.
    unfold toLowerCase in E. rewrite map_app in E.
    apply app_eq_length in E.
    2:{ rewrite length_map, substring_length by lia. lia. }
    destruct E as [E1 E2].
    destruct (nth_error text (i + List.length word)) as [ch|] eqn:Hch.
    2:{ apply nth_error_None in Hch. lia. }
    rewrite (substring_cons _ Hch), substring_empty in E2 by lia.
    cbn in E2. injection E2 as E2.
    eapply M_seq.
    + apply word_Matches; [lia|]. now apply canonicalize_lower_word.
    + apply M_opt_some; [|lia].
      eapply M_set; [exact Hch|]. cbn [class_matches]. apply N.eqb_eq.
      apply (@canonicalize_lower_iff ch 115%N); [reflexivity|exact E2].
Qed.

(** The unit alternatives. *)
Lemma Matches_unitRegex_inv (i j : nat) (c c' : captures) :
  Matches text unitRegex i c j c' ->
  c' = c /\ i < j /\ j <= List.length text /\
  exists mult, unit_seconds (substring text i j) = Some mult /\
               multiplier_of (toLowerCase (substring text i j)) = mult.
Proof.
  intros H. unfold unitRegex in H.
  repeat (apply Matches_alt_inv in H; destruct H as [H|H]);
    (apply Matches_pluralw_inv in H;
     [|reflexivity|discriminate]);
    destruct H as (-> & Hlt & Hlen & [E|E]);
    (repeat split; [exact Hlt|exact Hlen|]);
    unfold unit_seconds; rewrite E; eexists; split; reflexivity.
Qed.

Lemma lookup_unit_In (w : jsstring) (table : list (jsstring * Z)) (mult : Z) :
  lookup_unit w table = Some mult -> In (w, mult) table.
Proof.
  induction table as [|[word s] table IH]; cbn; [discriminate|].
  unfold jsstring_eqb. destruct (list_eq_dec N.eq_dec w word) as [->|_].
  - intros E; injection E as ->. now left.
  - intros E. right. now apply IH.
Qed.

Lemma unitRegex_Matches (i j : nat) (c : captures) (mult : Z) :
  i <= j -> j <= List.length text ->
  unit_seconds (substring text i j) = Some mult ->
  Matches text unitRegex i c j c.
Proof.
  intros Hle Hj Hu. apply lookup_unit_In in Hu. unfold unit_table in Hu.
  assert (Hp : forall word, forallb is_lower word = true ->
                 (toLowerCase (substring text i j) = word \/
                  toLowerCase (substring text i j) = word ++ [115%N]) ->
                 Matches text (pluralw word) i c j c)
    by (intros word Hlow Hw; now apply pluralw_Matches).
  unfold unitRegex.
  cbn [In] in Hu.
  destruct Hu as [E|[E|[E|[E|[E|[E|[E|[E|[E|[E|[E|[E|[]]]]]]]]]]]]];
    injection E as E _; symmetry in E.
  - apply M_alt_l. apply Hp; [reflexivity|now right].
  - apply M_alt_l. apply Hp; [reflexivity|now left].
  - apply M_alt_r, M_alt_l. apply Hp; [reflexivity|now right].
  - apply M_alt_r, M_alt_l. apply Hp; [reflexivity|now left].
  - apply M_alt_r, M_alt_r, M_alt_l. apply Hp; [reflexivity|now right].
  - apply M_alt_r, M_alt_r, M_alt_l. apply Hp; [reflexivity|now left].
  - apply M_alt_r, M_alt_r, M_alt_r, M_alt_l. apply Hp; [reflexivity|now right].
  - apply M_alt_r, M_alt_r, M_alt_r, M_alt_l. apply Hp; [reflexivity|now left].
  - apply M_alt_r, M_alt_r, M_alt_r, M_alt_r, M_alt_l.
    apply Hp; [reflexivity|now right].
  - apply M_alt_r, M_alt_r, M_alt_r, M_alt_r, M_alt_l.
    apply Hp; [reflexivity|now left].
  - apply M_alt_r, M_alt_r, M_alt_r, M_alt_r, M_alt_r.
    apply Hp; [reflexivity|now right].
  - apply M_alt_r, M_alt_r, M_alt_r, M_alt_r, M_alt_r.
    apply Hp; [reflexivity|now left].
Qed.

End InversionFacts.

(** ** The number of a phrase *)

Lemma digit_cases (c : N) :
  is_digit c = true ->
  (c = 48 \/ c = 49 \/ c = 50 \/ c = 51 \/ c = 52 \/
   c = 53 \/ c = 54 \/ c = 55 \/ c = 56 \/ c = 57)%N.
Proof.
  unfold is_digit. rewrite in_range_spec. lia.
Qed.

Lemma digits_prefix_all (s : jsstring) :
  forallb is_digit s = true -> digits_prefix s = s.
Proof.
  induction s as [|c s IH]; cbn; [reflexivity|].
  intros H. apply andb_true_iff in H. destruct H as [Hc Hs].
  now rewrite Hc, IH.
Qed.

(** [parseInt] of a non-empty string of digits is its decimal value,
    as a double. *)
Lemma parseInt10_digits (lo : jsstring) :
  lo <> [] -> forallb is_digit lo = true ->
  parseInt10 lo = double_of (decimal lo).
Proof.
  destruct lo as [|c lo]; [congruence|]. intros _ H.
  pose proof (digits_prefix_all _ H) as Hp.
  cbn [forallb] in H. apply andb_true_iff in H. destruct H as [Hc Hlo].
  unfold parseInt10.
  destruct (digit_cases _ Hc) as [->|[->|[->|[->|[->|[->|[->|[->|[->| ->]]]]]]]]];
    cbn [trimStart is_space in_range N.leb N.eqb N.compare Pos.compare
         Pos.compare_cont Pos.eqb andb orb];
    rewrite Hp; f_equal; apply Z.mul_1_l.
Qed.

Lemma double_of_not_NaN (z : Z) : double_of z <> NaN.
Proof.
  unfold double_of.
  destruct (2 ^ 1024 <=? round53 (Z.abs z))%Z; [destruct (z <? 0)%Z|];
    discriminate.
Qed.

Lemma decimal_nonneg (ds : jsstring) : (0 <= decimal ds)%Z.
Proof.
  unfold decimal.
  assert (H : forall acc : Z, (0 <= acc)%Z ->
            (0 <= fold_left (fun acc c => 10 * acc + digit_value c) ds acc)%Z).
  { induction ds as [|c ds IH]; intros acc Hacc; cbn [fold_left]; [exact Hacc|].
    apply IH. unfold digit_value. lia. }
  apply H. lia.
Qed.

(** The duration of a phrase is greater than 0 exactly when its lower
    bound is, and it is the exact product up to 2^53. *)
Lemma phrase_seconds_positive (lo : jsstring) (mult : Z) :
  (0 < mult)%Z ->
  number_gtb (phrase_seconds lo mult) (Num 0) = (0 <? decimal lo)%Z.
Proof.
  intros Hmult. unfold phrase_seconds.
  pose proof (decimal_nonneg lo) as Hlo.
  destruct (Z.ltb_spec 0 (decimal lo)) as [Hpos|Hzero].
  - destruct (double_of_positive Hpos) as [-> | (r & -> & Hr)].
    + cbn. destruct (Z.eqb_spec mult 0); [lia|].
      destruct (Z.ltb_spec 0 mult); [reflexivity|lia].
    + cbn [number_mul].
      assert (Hprod : (0 < r * mult)%Z) by (apply Z.mul_pos_pos; assumption).
      destruct (double_of_positive Hprod) as [-> | (r' & -> & Hr')];
        [reflexivity|].
      cbn. now apply Z.ltb_lt.
  - replace (decimal lo) with 0%Z by lia. reflexivity.
Qed.

Lemma phrase_seconds_exact (lo : jsstring) (mult : Z) :
  (0 < mult)%Z -> (decimal lo * mult <= two53)%Z ->
  phrase_seconds lo mult = Num (decimal lo * mult).
Proof.
  intros Hmult Hle. unfold phrase_seconds.
  pose proof (decimal_nonneg lo) as Hlo.
  assert (0 <= decimal lo * mult)%Z by (apply Z.mul_nonneg_nonneg; lia).
  assert (decimal lo <= decimal lo * mult)%Z by nia.
  rewrite double_of_small by lia. cbn [number_mul].
  apply double_of_small. lia.
Qed.

Lemma split_first_digits (lo rest : jsstring) :
  forallb is_digit lo = true ->
  (rest = [] \/ exists r, rest = 45%N :: r) ->
  split_first 45 (lo ++ rest) = lo.
Proof.
  intros Hlo Hrest. induction lo as [|c lo IH]; cbn.
  - destruct Hrest as [->|[r ->]]; reflexivity.
  - cbn in Hlo. apply andb_true_iff in Hlo. destruct Hlo as [Hc Hlo].
    rewrite (IH Hlo).
    destruct (N.eqb_spec c 45) as [->|_]; [discriminate Hc|reflexivity].
Qed.

Section TimeRegexFacts.

Variable text : jsstring.

(** A match of the pattern is a time phrase, with the captures on the
    number and on the unit, and the multiplier the code picks is the
    worth of the unit. *)
Lemma Matches_timeRegex_inv (i j : nat) (c' : captures) :
  Matches text timeRegex i no_captures j c' ->
  exists (a b c0 : nat) (mult : Z),
    (i < a /\ a <= b /\ b <= c0 /\ c0 < j /\ j <= List.length text) /\
    forallb is_digit (substring text i a) = true /\
    (b = a \/
     (nth_error text a = Some 45%N /\ S a < b /\
      forallb is_digit (substring text (S a) b) = true)) /\
    forallb is_space (substring text b c0) = true /\
    unit_seconds (substring text c0 j) = Some mult /\
    multiplier_of (toLowerCase (substring text c0 j)) = mult /\
    is_word_boundary text i = true /\
    is_word_boundary text j = true /\
    c' 1 = Some (i, b) /\ c' 2 = Some (c0, j).
Proof.
  intros H. unfold timeRegex in H.
  apply Matches_seq_inv in H. destruct H as (i0 & c1 & Hb1 & H).
  apply Matches_wordb_inv in Hb1. destruct Hb1 as (-> & -> & Hb1).
  apply Matches_seq_inv in H. destruct H as (b & c2 & Hnum & H).
  apply Matches_group_inv in Hnum. destruct Hnum as (c3 & Hnum & ->).
  apply Matches_seq_inv in Hnum. destruct Hnum as (a & c4 & Hlo & Hrange).
  apply Matches_digits1_inv in Hlo. destruct Hlo as (-> & Hia & Ha & Hlo).
  apply Matches_seq_inv in H. destruct H as (c0 & c5 & Hws & H).
  apply Matches_star_set_inv in Hws. destruct Hws as (-> & Hbc & Hc0 & Hws).
  apply Matches_seq_inv in H. destruct H as (j0 & c6 & Hunit & Hb2).
  apply Matches_wordb_inv in Hb2. destruct Hb2 as (-> & -> & Hb2).
  apply Matches_group_inv in Hunit. destruct Hunit as (c7 & Hunit & ->).
  apply Matches_unitRegex_inv in Hunit.
  destruct Hunit as (-> & Hcj & Hj & mult & Hu & Hm).
  assert (Hrange' :
            c3 = no_captures /\ a <= b /\
            (b = a \/
             (nth_error text a = Some 45%N /\ S a < b /\
              forallb is_digit (substring text (S a) b) = true))).
  { apply Matches_opt_inv in Hrange. destruct Hrange as [[Hr _]|[-> ->]].
    - apply Matches_seq_inv in Hr. destruct Hr as (a1 & c8 & Hdash & Hhi).
      apply Matches_set_inv in Hdash. destruct Hdash as (-> & -> & ch & Hch & Hcls).
      apply Matches_digits1_inv in Hhi. destruct Hhi as (-> & Hlt & _ & Hhi).
      cbn in Hcls. apply N.eqb_eq in Hcls.
      assert (ch = 45%N).
      { unfold canonicalize in Hcls. cbn in Hcls.
        destruct (in_range 97 122 ch) eqn:Hr; [|exact Hcls].
        apply in_range_spec in Hr. lia. }
      subst ch. repeat split; try lia. right. repeat split; assumption.
    - repeat split; auto. }
  destruct Hrange' as (-> & Hab & Hrange').
  exists a, b, c0, mult.
  repeat split; try assumption; try lia.
Qed.

(** Conversely the pattern matches every time phrase. *)
Lemma time_phrase_Matches (i j : nat) (lo : jsstring) (mult : Z) :
  time_phrase text i j lo mult ->
  exists c', Matches text timeRegex i no_captures j c'.
Proof.
  intros (a & b & c0 & Hia & Hab & Hbc & Hcj & Hj & -> & Hlo & Hrange & Hws
          & Hu & Hb1 & Hb2).
  eexists. unfold timeRegex.
  eapply M_seq; [apply M_wordb; exact Hb1|].
  eapply M_seq.
  { apply M_group. eapply M_seq.
    - apply digits1_Matches; [exact Hia|lia|exact Hlo].
    - destruct Hrange as [->|(Hdash & Hlt & Hhi)].
      + apply M_opt_none.
      + apply M_opt_some; [|lia]. eapply M_seq.
        * eapply M_set; [exact Hdash|reflexivity].
        * apply digits1_Matches; [exact Hlt|lia|exact Hhi]. }
  eapply M_seq.
  { apply (@star_set_Matches text Space _ c0) with (n := c0 - b);
      [lia|reflexivity|exact Hbc|exact Hws]. }
  eapply M_seq; [|apply M_wordb; exact Hb2].
  apply M_group. eapply unitRegex_Matches; [lia|exact Hj|exact Hu].
Qed.

(** What the code computes from a match. *)
Lemma lower_bound_of_number (i a b : nat) :
  i < a -> a <= b -> b <= List.length text ->
  forallb is_digit (substring text i a) = true ->
  (b = a \/
   (nth_error text a = Some 45%N /\ S a < b /\
    forallb is_digit (substring text (S a) b) = true)) ->
  lower_bound (substring text i b) = double_of (decimal (substring text i a)).
Proof.
  intros Hia Hab Hb Hlo Hrange. unfold lower_bound.
  rewrite (@substring_app text i a b) by lia.
  rewrite split_first_digits; [|exact Hlo|].
  - rewrite parseInt10_digits; [| |exact Hlo].
    + pose proof (double_of_not_NaN (decimal (substring text i a))) as Hn.
      destruct (double_of (decimal (substring text i a)));
        [congruence|reflexivity|reflexivity|reflexivity].
    + intros E. apply (f_equal (@List.length N)) in E.
      rewrite substring_length in E by lia. cbn in E. lia.
  - destruct Hrange as [->|(Hdash & Hlt & _)].
    + left. apply substring_empty.
    + right. rewrite (substring_cons _ Hdash) by lia. eauto.
Qed.

End TimeRegexFacts.

(* ================================================================== *)
(** * The search and the loop of the renderer *)
(* ================================================================== *)

Section SearchFacts.

Variable text : jsstring.
Variable r : regex.

(** The search returns the first position, from [i] on, at which the
    pattern matches. *)
Lemma exec_from_Some (more : nat) :
  forall (i : nat) (m : MatchResult),
    exec_from text r more i = Some m ->
    i <= index m /\ index m <= i + more /\
    Matches text r (index m) no_captures (endIndex m) (groups m) /\
    (forall p j c', i <= p -> p < index m ->
                    ~ Matches text r p no_captures j c').
Proof.
  induction more as [|more IH]; intros i m H; cbn [exec_from] in H;
    fold accept in H;
    destruct (rmatch text r i no_captures accept) as [[j c]|] eqn:Hrun.
  - injection H as <-. cbn.
    apply rmatch_sound in Hrun. destruct Hrun as (j' & c' & Hm & Hacc).
    injection Hacc as -> ->.
    repeat split; try lia; exact Hm.
  - discriminate.
  - injection H as <-. cbn.
    apply rmatch_sound in Hrun. destruct Hrun as (j' & c' & Hm & Hacc).
    injection Hacc as -> ->.
    repeat split; try lia; exact Hm.
  - apply IH in H. destruct H as (Hle & Hup & Hm & Hfirst).
    repeat split; try lia; [exact Hm|].
    intros p j c' Hip Hpm Hp.
    destruct (Nat.eq_dec p i) as [->|Hne].
    + revert Hrun. eapply rmatch_complete; [exact Hp|discriminate].
    + apply (Hfirst p j c'); [lia|exact Hpm|exact Hp].
Qed.

Lemma exec_from_None (more : nat) :
  forall (i : nat),
    exec_from text r more i = None ->
    forall p j c', i <= p -> p <= i + more ->
                   ~ Matches text r p no_captures j c'.
Proof.
  induction more as [|more IH]; intros i H p j c' Hip Hpm Hp;
    cbn [exec_from] in H; fold accept in H;
    destruct (rmatch text r i no_captures accept) as [[j0 c0]|] eqn:Hrun;
    try discriminate.
  - replace p with i in Hp by lia.
    revert Hrun. eapply rmatch_complete; [exact Hp|discriminate].
  - destruct (Nat.eq_dec p i) as [->|Hne].
    + revert Hrun. eapply rmatch_complete; [exact Hp|discriminate].
    + apply (IH (S i) H p j c'); [lia|lia|exact Hp].
Qed.

End SearchFacts.

Section LoopFacts.

Variable text : jsstring.

Lemma part_text_phrase_part (i j : nat) (lo : jsstring) (mult : Z) :
  part_text (phrase_part text i j lo mult) = substring text i j.
Proof.
  unfold phrase_part. now destruct (0 <? decimal lo)%Z.
Qed.

Lemma concat_text_between (p i : nat) :
  p <= i ->
  List.concat (map part_text (text_between text p i)) = substring text p i.
Proof.
  intros Hle. unfold text_between.
  destruct (Nat.ltb_spec p i); cbn.
  - apply app_nil_r.
  - replace i with p by lia. now rewrite substring_empty.
Qed.

Lemma concat_text_after (p : nat) :
  p <= List.length text ->
  List.concat (map part_text (text_after text p)) = substring_from text p.
Proof.
  intros Hle. unfold text_after.
  destruct (Nat.ltb_spec p (List.length text)); cbn.
  - apply app_nil_r.
  - unfold substring_from. symmetry. apply skipn_all2. lia.
Qed.

(** One round of the loop on a match of the pattern: the text before
    the phrase, then the part of the phrase. *)
Lemma push_match_phrase (p : nat) (m : MatchResult) (parts : list Part) :
  Matches text timeRegex (index m) no_captures (endIndex m) (groups m) ->
  exists (lo : jsstring) (mult : Z),
    time_phrase text (index m) (endIndex m) lo mult /\
    push_match text p m parts
    = parts ++ text_between text p (index m)
        ++ [phrase_part text (index m) (endIndex m) lo mult].
Proof.
  intros Hm. apply Matches_timeRegex_inv in Hm.
  destruct Hm as (a & b & c0 & mult & (Hia & Hab & Hbc & Hcj & Hj) & Hlo
                  & Hrange & Hws & Hu & Hmul & Hb1 & Hb2 & Hg1 & Hg2).
  exists (substring text (index m) a), mult. split.
  - exists a, b, c0. repeat split; assumption.
  - assert (Hsec : seconds_of text m
                   = phrase_seconds (substring text (index m) a) mult).
    { unfold seconds_of, group, phrase_seconds. rewrite Hg1, Hg2, Hmul.
      rewrite (@lower_bound_of_number text (index m) a b); auto; lia. }
    assert (Hmult : (0 < mult)%Z).
    { apply lookup_unit_In in Hu. cbn in Hu.
      repeat (destruct Hu as [Hu|Hu]; [injection Hu as _ <-; lia|]).
      contradiction. }
    unfold push_match, text_between, phrase_part, matched.
    rewrite Hsec, (phrase_seconds_positive _ Hmult).
    destruct (p <? index m);
      destruct (0 <? decimal (substring text (index m) a))%Z;
      cbn [app]; rewrite <- ?app_assoc; reflexivity.
Qed.

(** The loop started at [p] with enough fuel ends, and what it pushes,
    followed by the rest of the text, annotates the text from [p]. *)
Lemma render_loop_annotated (fuel : nat) :
  forall (p : nat) (parts : list Part),
    p <= List.length text -> List.length text - p < fuel ->
    exists (last : nat) (ps : list Part),
      render_loop fuel text p p parts = Some (last, parts ++ ps) /\
      p <= last /\ last <= List.length text /\
      annotated text p (ps ++ text_after text last) /\
      List.concat (map part_text ps) = substring text p last.
Proof.
  induction fuel as [|fuel IH]; intros p parts Hp Hfuel; [lia|].
  cbn [render_loop]. unfold exec.
  destruct (Nat.ltb_spec (List.length text) p) as [Hgt|_]; [lia|].
  destruct (exec_from text timeRegex (List.length text - p) p) as [m|] eqn:Hexec.
  - apply exec_from_Some in Hexec.
    destruct Hexec as (Hle & Hup & Hm & Hfirst).
    pose proof (Matches_timeRegex_inv Hm) as Hshape.
    destruct Hshape as (a & b & c0 & mult0 & (Hia & Hab & Hbc & Hcj & Hj) & _).
    destruct (@push_match_phrase p m parts Hm) as (lo & mult & Hphrase & Hpush).
    rewrite Hpush.
    destruct (IH (endIndex m)
                 (parts ++ text_between text p (index m)
                    ++ [phrase_part text (index m) (endIndex m) lo mult]))
      as (last & ps & Hrun & Hlast1 & Hlast2 & Hann & Hcat); [lia|lia|].
    exists last,
      (text_between text p (index m)
         ++ phrase_part text (index m) (endIndex m) lo mult :: ps).
    repeat split; try lia.
    + rewrite Hrun. f_equal. f_equal.
      rewrite <- !app_assoc. reflexivity.
    + rewrite <- app_assoc. cbn [app].
      apply annotated_phrase; [exact Hle|exact Hphrase| |exact Hann].
      intros i' j' lo' mult' Hpi Hii Hph.
      apply time_phrase_Matches in Hph. destruct Hph as (c' & Hph).
      exact (Hfirst i' j' c' Hpi Hii Hph).
    + rewrite map_app, concat_app. cbn [map List.concat].
      rewrite concat_text_between, part_text_phrase_part, Hcat by lia.
      rewrite <- (@substring_app text (index m) (endIndex m) last) by lia.
      rewrite <- (@substring_app text p (index m) last) by lia.
      reflexivity.
  - exists p, []. rewrite app_nil_r.
    repeat split; try lia.
    + cbn [app]. apply annotated_rest.
      intros i j lo mult Hpi Hph.
      assert (Hij : i < j /\ j <= List.length text).
      { destruct Hph as (a & b & c0 & ? & ? & ? & ? & ? & _). lia. }
      apply time_phrase_Matches in Hph. destruct Hph as (c' & Hph).
      eapply (@exec_from_None text timeRegex); [exact Hexec| | |exact Hph]; lia.
    + now rewrite substring_empty.
Qed.

(** The renderer always returns, and its parts annotate the text and
    spell it out again. *)
Lemma render_parts_total :
  exists parts : list Part,
    render_parts (S (List.length text)) text = Some parts /\
    annotated text 0 parts /\
    List.concat (map part_text parts) = text.
Proof.
  destruct (@render_loop_annotated (S (List.length text)) 0 [])
    as (last & ps & Hrun & _ & Hlast & Hann & Hcat); [lia|lia|].
  cbn [app] in Hrun.
  exists (ps ++ text_after text last).
  repeat split.
  - unfold render_parts. rewrite Hrun. unfold text_after.
    destruct (last <? List.length text); [reflexivity|now rewrite app_nil_r].
  - exact Hann.
  - rewrite map_app, concat_app, Hcat, concat_text_after by exact Hlast.
    rewrite substring_prefix. apply firstn_skipn.
Qed.

Lemma time_phrase_multiplier (i j : nat) (lo : jsstring) (mult : Z) :
  time_phrase text i j lo mult -> (mult = 1 \/ mult = 60 \/ mult = 3600)%Z.
Proof.
  intros (a & b & c0 & _ & _ & _ & _ & _ & _ & _ & _ & _ & Hu & _).
  apply lookup_unit_In in Hu. cbn in Hu.
  repeat (destruct Hu as [Hu|Hu]; [injection Hu as _ <-; lia|]).
  contradiction.
Qed.

(** Every button of an annotation stands on a phrase and carries its
    duration, and the lower bound of the phrase is positive. *)
Lemma annotated_buttons (p : nat) (parts : list Part) :
  annotated text p parts ->
  forall (key : nat) (seconds : number) (label : jsstring),
    In (TimerButton key seconds label) parts ->
    exists (j : nat) (lo : jsstring) (mult : Z),
      p <= key /\
      time_phrase text key j lo mult /\
      label = substring text key j /\
      seconds = phrase_seconds lo mult /\ (0 < decimal lo)%Z.
Proof.
  induction 1 as [p Hnone|p i j lo mult rest Hpi Hph Hfirst Hrest IH];
    intros key seconds label Hin.
  - unfold text_after in Hin.
    destruct (p <? List.length text); cbn in Hin; [|contradiction].
    destruct Hin as [Hin|[]]; discriminate.
  - apply in_app_or in Hin. destruct Hin as [Hin|[Hin|Hin]].
    + unfold text_between in Hin.
      destruct (p <? i); cbn in Hin; [|contradiction].
      destruct Hin as [Hin|[]]; discriminate.
    + unfold phrase_part in Hin.
      destruct (Z.ltb_spec 0 (decimal lo)); [|discriminate].
      injection Hin as <- <- <-.
      exists j, lo, mult. repeat split; auto.
    + destruct (IH key seconds label Hin) as (j' & lo' & mult' & Hle & Hrestp).
      exists j', lo', mult'. split; [|exact Hrestp].
      assert (i < j) by (destruct Hph as (a & b & c0 & ? & ? & ? & ? & _); lia).
      lia.
Qed.

End LoopFacts.

(* ================================================================== *)
(** * The instruction renderer *)
(* ================================================================== *)

(** C1, as the code has it.  For every instruction text the renderer
    returns, and what it returns follows the phrases of the text read
    from left to right: the first phrase "number, optionally dash and
    number, optional white space, unit" between word boundaries (units
    hours/hour/hrs/hr, minutes/minute/mins/min, seconds/second/secs/sec
    in any letter case) becomes a timer button, or stays plain text when
    its lower bound is 0; the text before it is plain; and the scan goes
    on after the phrase.  Every button of the result stands on such a
    phrase, whose lower bound is positive, and carries the duration the
    double arithmetic gives: the lower bound read as a double, times
    3600, 60 or 1, rounded to a double; that duration is greater than 0,
    and it is exactly the decimal value of the lower bound times the
    multiplier whenever this product is at most 2^53.  The duration
    computed for a phrase is 0 exactly when its lower bound is 0. *)
Theorem renderInstructionText_time_phrases (text : jsstring) :
  (exists parts : list Part,
    renderInstructionText text
    = Some (match parts with [] => Plain text | _ :: _ => Fragment parts end) /\
    annotated text 0 parts /\
    (forall (key : nat) (seconds : number) (label : jsstring),
        In (TimerButton key seconds label) parts ->
        exists (j : nat) (lo : jsstring) (mult : Z),
          time_phrase text key j lo mult /\
          label = substring text key j /\
          (mult = 1 \/ mult = 60 \/ mult = 3600)%Z /\
          (0 < decimal lo)%Z /\
          seconds = number_mul (double_of (decimal lo)) (Num mult) /\
          number_gtb seconds (Num 0) = true /\
          ((decimal lo * mult <= two53)%Z ->
           seconds = Num (decimal lo * mult)))) /\
  (forall (i j : nat) (lo : jsstring) (mult : Z),
      time_phrase text i j lo mult ->
      (phrase_seconds lo mult = Num 0 <-> decimal lo = 0%Z) /\
      (number_gtb (phrase_seconds lo mult) (Num 0) = false
       <-> decimal lo = 0%Z)).
Proof.
  split.
  2:{ intros i j lo mult Hph.
      assert (Hmult : (0 < mult)%Z)
        by (destruct (time_phrase_multiplier Hph) as [->|[->| ->]]; lia).
      pose proof (phrase_seconds_positive lo Hmult) as Hgt.
      pose proof (decimal_nonneg lo) as Hlo.
      assert (Hzero : decimal lo = 0%Z -> phrase_seconds lo mult = Num 0).
      { intros E. unfold phrase_seconds. rewrite E. reflexivity. }
      split; split.
      - intros E. rewrite E in Hgt. cbn in Hgt.
        symmetry in Hgt. apply Z.ltb_ge in Hgt. lia.
      - exact Hzero.
      - intros E. rewrite E in Hgt. symmetry in Hgt.
        apply Z.ltb_ge in Hgt. lia.
      - intros E. rewrite (Hzero E). reflexivity. }
  destruct (render_parts_total text) as (parts & Hrun & Hann & _).
  exists parts. split; [|split; [exact Hann|]].
  - unfold renderInstructionText. rewrite Hrun. reflexivity.
  - intros key seconds label Hin.
    destruct (annotated_buttons Hann _ _ _ Hin)
      as (j & lo & mult & _ & Hph & Hlabel & Hsec & Hpos).
    exists j, lo, mult.
    pose proof (time_phrase_multiplier Hph) as Hmult.
    split; [exact Hph|]. split; [exact Hlabel|]. split; [exact Hmult|].
    split; [exact Hpos|]. split; [exact Hsec|]. split.
    + rewrite Hsec, phrase_seconds_positive by lia. now apply Z.ltb_lt.
    + intros Hle. rewrite Hsec. apply phrase_seconds_exact; [lia|exact Hle].
Qed.

Lemma renderInstructionText_time_phrases_witness :
  let text := str "Simmer 1-2 hours" in
  exists parts : list Part,
    renderInstructionText text = Some (Fragment parts) /\
    In (TimerButton 7 (Num 3600) (str "1-2 hours")) parts.
Proof.
  cbn zeta.
  destruct (proj1 (renderInstructionText_time_phrases (str "Simmer 1-2 hours")))
    as (parts & Hrun & _).
  exists parts.
  assert (Hparts : parts = [Text (str "Simmer ");
                            TimerButton 7 (Num 3600) (str "1-2 hours")]).
  { destruct parts as [|part parts]; vm_compute in Hrun;
      [discriminate Hrun|].
    injection Hrun as <- <-. reflexivity. }
  subst parts. split; [reflexivity|right; left; reflexivity].
Defined.

(** C1 fails as stated above 2^53: "9007199254740993 secs" is a phrase
    whose lower bound is 9007199254740993 and whose unit is worth 1, and
    the button the renderer makes for it carries 9007199254740992, the
    double [parseInt] returns, not the lower bound times 1. *)
Lemma large_lower_bound_is_rounded :
  let text := str "9007199254740993 secs" in
  renderInstructionText text
  = Some (Fragment [TimerButton 0 (Num 9007199254740992) text]) /\
  time_phrase text 0 21 (str "9007199254740993") 1 /\
  (decimal (str "9007199254740993") * 1 = 9007199254740993)%Z /\
  Num 9007199254740992 <> Num (decimal (str "9007199254740993") * 1).
Proof.
  cbn zeta. split; [vm_compute; reflexivity|]. split; [|split].
  - exists 16, 16, 17.
    split; [cbn; lia|]. split; [cbn; lia|]. split; [cbn; lia|].
    split; [cbn; lia|]. split; [cbn; lia|].
    repeat split; try (left; reflexivity); vm_compute; reflexivity.
  - vm_compute. reflexivity.
  - vm_compute. intros H. discriminate H.
Qed.

(** C9. For every instruction text the renderer returns, and the parts
    it returns, read in order (a plain part as it is, a button by its
    label), spell out the text it was given. *)
Theorem renderInstructionText_preserves_text (text : jsstring) :
  exists rendered : Rendered,
    renderInstructionText text = Some rendered /\
    rendered_text rendered = text.
Proof.
  destruct (render_parts_total text) as (parts & Hrun & _ & Hcat).
  unfold renderInstructionText. rewrite Hrun.
  destruct parts as [|part parts].
  - exists (Plain text). split; reflexivity.
  - exists (Fragment (part :: parts)). split; [reflexivity|exact Hcat].
Qed.

(** The renderer on some instructions. *)
Example render_five_minutes :
  renderInstructionText (str "Bake for 5 minutes.")
  = Some (Fragment [Text (str "Bake for ");
                    TimerButton 9 (Num 300) (str "5 minutes");
                    Text (str ".")]).
Proof. reflexivity. Qed.

Example render_range_of_hours :
  renderInstructionText (str "Rest 1-2 Hours")
  = Some (Fragment [Text (str "Rest "); TimerButton 5 (Num 3600) (str "1-2 Hours")]).
Proof. reflexivity. Qed.

Example render_zero_minutes :
  renderInstructionText (str "0 minutes")
  = Some (Fragment [Text (str "0 minutes")]).
Proof. reflexivity. Qed.

Example render_seconds_without_space :
  renderInstructionText (str "stir 30secs")
  = Some (Fragment [Text (str "stir "); TimerButton 5 (Num 30) (str "30secs")]).
Proof. reflexivity. Qed.

Example render_no_boundary :
  renderInstructionText (str "a5 min, 5 minutesx")
  = Some (Fragment [Text (str "a5 min, 5 minutesx")]).
Proof. reflexivity. Qed.

Example render_empty :
  renderInstructionText [] = Some (Plain []).
Proof. reflexivity. Qed.

(** A number of 309 digits or more is read as Infinity. *)
Example render_very_long_number :
  let text := repeat 57%N 309 ++ str " secs" in
  renderInstructionText text = Some (Fragment [TimerButton 0 Infinity text]).
Proof. vm_compute. reflexivity. Qed.

(* ================================================================== *)
(** * Further properties of the countdown *)
(* ================================================================== *)

Lemma run_app (d : Z) (s : TimerOverlay.TimerState)
      (es1 es2 : list TimerOverlay.TimerEvent) :
  TimerOverlay.run d s (es1 ++ es2)
  = TimerOverlay.run d (TimerOverlay.run d s es1) es2.
Proof. unfold TimerOverlay.run. apply fold_left_app. Qed.

Lemma run_cons (d : Z) (s : TimerOverlay.TimerState)
      (e : TimerOverlay.TimerEvent) (es : list TimerOverlay.TimerEvent) :
  TimerOverlay.run d s (e :: es)
  = TimerOverlay.run d (TimerOverlay.step d s e) es.
Proof. reflexivity. Qed.

Lemma tick_running (d t : Z) (f : bool) :
  (0 < t <= two53)%Z ->
  TimerOverlay.step d (TimerOverlay.mkTimer t true f) TimerOverlay.Tick
  = if (t =? 1)%Z then TimerOverlay.mkTimer 0 false true
    else TimerOverlay.mkTimer (t - 1) true f.
Proof.
  intros Ht.
  unfold TimerOverlay.step, TimerOverlay.interval_running,
    TimerOverlay.rerender, TimerOverlay.effect, TimerOverlay.decrement.
  timer_simpl. rewrite (minus_one_exact Ht).
  destruct (Z.ltb_spec 0 t); [|lia].
  destruct (Z.eqb_spec t (t - 1)); [lia|]. timer_simpl.
  destruct (Z.eqb_spec t 1) as [->|Hne]; [reflexivity|].
  destruct (Z.ltb_spec 0 (t - 1)); [reflexivity|lia].
Qed.

Lemma ticks_count_down (d : Z) (k : nat) :
  forall t : Z,
    (Z.of_nat k <= t)%Z -> (0 < t <= two53)%Z ->
    TimerOverlay.run d (TimerOverlay.mkTimer t true false)
                     (repeat TimerOverlay.Tick k)
    = if (Z.of_nat k =? t)%Z then TimerOverlay.mkTimer 0 false true
      else TimerOverlay.mkTimer (t - Z.of_nat k) true false.
Proof.
  induction k as [|k IH]; intros t Hk Ht.
  - cbn [repeat TimerOverlay.run fold_left].
    destruct (Z.eqb_spec (Z.of_nat 0) t); [lia|].
    now rewrite Z.sub_0_r.
  - cbn [repeat]. rewrite run_cons, tick_running by exact Ht.
    destruct (Z.eqb_spec t 1) as [->|Hne].
    + assert (k = 0%nat) by lia. subst k. reflexivity.
    + rewrite IH by lia.
      destruct (Z.eqb_spec (Z.of_nat k) (t - 1));
        destruct (Z.eqb_spec (Z.of_nat (S k)) t); try lia; try reflexivity.
      f_equal. lia.
Qed.

(** X1. A timer opened on a positive duration of at most 2^53 seconds
    counts down one second per tick: after [k] ticks, for [k] below the
    duration, it is still running with [durationSeconds - k] left, and
    the tick number [durationSeconds] leaves it at 0, finished and
    inactive; the ticks that the stopped interval can no longer send
    would change nothing. *)
Theorem countdown_finishes_after_duration (durationSeconds : Z) (k : nat) :
  (0 < durationSeconds <= two53)%Z -> (Z.of_nat k <= durationSeconds)%Z ->
  let after := TimerOverlay.run durationSeconds
                 (TimerOverlay.opened durationSeconds)
                 (repeat TimerOverlay.Tick k) in
  ((Z.of_nat k < durationSeconds)%Z ->
   after = TimerOverlay.mkTimer (durationSeconds - Z.of_nat k) true false) /\
  (Z.of_nat k = durationSeconds ->
   after = TimerOverlay.mkTimer 0 false true /\
   TimerOverlay.step durationSeconds after TimerOverlay.Tick = after).
Proof.
  intros Hd Hk. cbn zeta. unfold TimerOverlay.opened.
  rewrite ticks_count_down by lia.
  split; intros Hcase.
  - destruct (Z.eqb_spec (Z.of_nat k) durationSeconds); [lia|reflexivity].
  - destruct (Z.eqb_spec (Z.of_nat k) durationSeconds); [|lia].
    split; reflexivity.
Qed.

Lemma countdown_finishes_after_duration_witness :
  (0 < 3 <= two53)%Z /\ (Z.of_nat 3 <= 3)%Z /\
  TimerOverlay.run 3 (TimerOverlay.opened 3) (repeat TimerOverlay.Tick 3)
  = TimerOverlay.mkTimer 0 false true.
Proof.
  assert (Hrange : (0 < 3 <= two53)%Z) by (vm_compute; split; congruence).
  assert (Hk : (Z.of_nat 3 <= 3)%Z) by (cbn; lia).
  split; [exact Hrange|]. split; [exact Hk|].
  exact (proj1 (proj2 (@countdown_finishes_after_duration 3 3 Hrange Hk)
                      eq_refl)).
Defined.

(** X2. Whatever is clicked and however many ticks arrive, an open timer
    on a positive duration keeps its time between 0 and the duration, is
    finished exactly when no time is left, and is never both finished
    and active. *)
Theorem open_timer_invariant (durationSeconds : Z)
        (events : list TimerOverlay.TimerEvent) :
  (0 < durationSeconds)%Z ->
  let s := TimerOverlay.run durationSeconds
             (TimerOverlay.opened durationSeconds) events in
  (0 <= TimerOverlay.timeLeft s <= durationSeconds)%Z /\
  (TimerOverlay.isFinished s = true <-> TimerOverlay.timeLeft s = 0%Z) /\
  (TimerOverlay.isFinished s = true -> TimerOverlay.isActive s = false).
Proof.
  intros Hd. cbn zeta.
  apply (@run_preserves_invariant durationSeconds events); [exact Hd|].
  unfold timer_invariant, TimerOverlay.opened. timer_simpl.
  repeat split; try lia; intros; try discriminate; lia.
Qed.

Lemma open_timer_invariant_witness :
  (0 < 2)%Z /\
  (0 <= TimerOverlay.timeLeft
          (TimerOverlay.run 2 (TimerOverlay.opened 2)
             [TimerOverlay.Tick; TimerOverlay.Toggle; TimerOverlay.Tick;
              TimerOverlay.Reset]) <= 2)%Z.
Proof.
  split; [lia|].
  refine (proj1 (@open_timer_invariant 2
                   [TimerOverlay.Tick; TimerOverlay.Toggle; TimerOverlay.Tick;
                    TimerOverlay.Reset] _)).
  lia.
Defined.

Lemma paused_ticks (d t : Z) (n : nat) :
  TimerOverlay.run d (TimerOverlay.mkTimer t false false)
                   (repeat TimerOverlay.Tick n)
  = TimerOverlay.mkTimer t false false.
Proof.
  induction n as [|n IH]; [reflexivity|].
  cbn [repeat]. rewrite run_cons. exact IH.
Qed.

(** X3. Pausing a running timer, letting any number of seconds pass and
    resuming gives back the state it was paused in: no time is lost
    while paused. *)
Theorem pause_keeps_time (durationSeconds timeLeft : Z) (n : nat) :
  (0 < timeLeft)%Z ->
  let s := TimerOverlay.mkTimer timeLeft true false in
  TimerOverlay.step durationSeconds s TimerOverlay.Toggle
  = TimerOverlay.mkTimer timeLeft false false /\
  TimerOverlay.run durationSeconds s
    (TimerOverlay.Toggle :: repeat TimerOverlay.Tick n ++ [TimerOverlay.Toggle])
  = s.
Proof.
  intros Ht. cbn zeta.
  assert (Hpause : TimerOverlay.step durationSeconds
                     (TimerOverlay.mkTimer timeLeft true false)
                     TimerOverlay.Toggle
                   = TimerOverlay.mkTimer timeLeft false false).
  { unfold TimerOverlay.step, TimerOverlay.rerender, TimerOverlay.effect,
      TimerOverlay.toggleTimer. timer_simpl.
    rewrite andb_false_r. timer_simpl.
    destruct (Z.eqb_spec timeLeft 0); [lia|reflexivity]. }
  split; [exact Hpause|].
  rewrite run_cons, Hpause, run_app, paused_ticks.
  unfold TimerOverlay.run. cbn [fold_left].
  unfold TimerOverlay.step, TimerOverlay.rerender, TimerOverlay.effect,
    TimerOverlay.toggleTimer. timer_simpl.
  rewrite andb_false_r. timer_simpl.
  destruct (Z.ltb_spec 0 timeLeft); [reflexivity|lia].
Qed.

Lemma pause_keeps_time_witness :
  (0 < 90)%Z /\
  TimerOverlay.run 120 (TimerOverlay.mkTimer 90 true false)
    (TimerOverlay.Toggle :: repeat TimerOverlay.Tick 5 ++ [TimerOverlay.Toggle])
  = TimerOverlay.mkTimer 90 true false.
Proof.
  split; [lia|].
  refine (proj2 (@pause_keeps_time 120 90 5 _)). lia.
Defined.

(* ================================================================== *)
(** * The clock display *)
(* ================================================================== *)

Lemma decimal_snoc (ds : jsstring) (c : N) :
  decimal (ds ++ [c]) = (10 * decimal ds + digit_value c)%Z.
Proof. unfold decimal. now rewrite fold_left_app. Qed.

(** With enough fuel, [digits_of] puts in front of [acc] the decimal
    digits of [n]: at least one, exactly one below 10 and exactly two
    from 10 to 99, and read back they give [n]. *)
Lemma digits_of_spec (fuel : nat) :
  forall (n : N) (acc : jsstring),
    (n < 2 ^ N.of_nat fuel)%N -> 0 < fuel ->
    exists ds : jsstring,
      digits_of fuel n acc = ds ++ acc /\
      forallb is_digit ds = true /\
      decimal ds = Z.of_N n /\
      1 <= List.length ds /\
      ((n < 10)%N -> List.length ds = 1) /\
      ((n < 100)%N -> List.length ds <= 2).
Proof.
  induction fuel as [|fuel IH]; intros n acc Hn Hfuel; [lia|].
  cbn [digits_of].
  assert (Hmod : (n mod 10 < 10)%N) by (apply N.mod_upper_bound; discriminate).
  assert (Hdigit : is_digit (48 + n mod 10) = true).
  { unfold is_digit. apply in_range_spec. split.
    - apply N.le_add_r.
    - change 57%N with (48 + 9)%N. apply N.add_le_mono_l.
      now apply N.lt_succ_r. }
  assert (Hval : digit_value (48 + n mod 10) = Z.of_N (n mod 10)).
  { unfold digit_value. f_equal. rewrite N.add_comm. apply N.add_sub. }
  destruct (N.ltb_spec n 10) as [Hsmall|Hbig].
  - exists [(48 + n mod 10)%N]. repeat split.
    + cbn [forallb]. now rewrite Hdigit.
    + unfold decimal. cbn [fold_left].
      rewrite Hval, N.mod_small by exact Hsmall. lia.
    + cbn [List.length]. lia.
    + cbn [List.length]. lia.
  - rewrite Nat2N.inj_succ, N.pow_succ_r' in Hn.
    assert (Hdiv : (n / 10 < 2 ^ N.of_nat fuel)%N).
    { apply N.Div0.div_lt_upper_bound. lia. }
    assert (Hpos : 0 < fuel).
    { destruct fuel; [|lia]. cbn in Hdiv.
      assert (1 <= n / 10)%N; [|lia].
      apply N.div_le_lower_bound; lia. }
    destruct (IH (n / 10)%N ((48 + n mod 10)%N :: acc) Hdiv Hpos)
      as (ds & Heq & Hall & Hdec & Hlen & Hone & Htwo).
    exists (ds ++ [(48 + n mod 10)%N]). repeat split.
    + rewrite Heq, <- app_assoc. reflexivity.
    + rewrite forallb_app, Hall. cbn [forallb andb]. now rewrite Hdigit.
    + rewrite decimal_snoc, Hdec, Hval.
      rewrite (N.div_mod n 10) at 3 by discriminate.
      rewrite N2Z.inj_add, N2Z.inj_mul. reflexivity.
    + rewrite length_app. cbn [List.length]. lia.
    + intros Hlt. exfalso. apply (N.lt_irrefl n).
      eapply N.lt_le_trans; eassumption.
    + intros Hlt. rewrite length_app. cbn [List.length].
      assert (H10 : (n / 10 < 10)%N)
        by (apply N.Div0.div_lt_upper_bound; exact Hlt).
      specialize (Hone H10). lia.
Qed.

Lemma natural_toString_spec (n : N) :
  forallb is_digit (natural_toString n) = true /\
  decimal (natural_toString n) = Z.of_N n /\
  1 <= List.length (natural_toString n) /\
  ((n < 100)%N -> List.length (natural_toString n) <= 2).
Proof.
  unfold natural_toString.
  destruct (@digits_of_spec (S (N.to_nat (N.log2 n))) n [])
    as (ds & Heq & Hall & Hdec & Hlen & _ & Htwo).
  - rewrite Nat2N.inj_succ, N2Nat.id.
    destruct (N.eq_dec n 0) as [->|Hne]; [reflexivity|].
    apply N.log2_spec. lia.
  - lia.
  - rewrite Heq, app_nil_r. auto.
Qed.

Lemma decimal_leading_zeros (k : nat) (ds : jsstring) :
  decimal (repeat 48%N k ++ ds) = decimal ds.
Proof.
  unfold decimal. rewrite fold_left_app. f_equal.
  induction k as [|k IH]; [reflexivity|].
  replace (repeat 48%N (S k)) with (repeat 48%N k ++ [48%N])
    by (symmetry; apply repeat_cons).
  rewrite fold_left_app, IH. reflexivity.
Qed.

Lemma padStart_digits (ds : jsstring) :
  forallb is_digit ds = true ->
  forallb is_digit (padStart 2 48 ds) = true /\
  decimal (padStart 2 48 ds) = decimal ds /\
  List.length (padStart 2 48 ds) = Nat.max 2 (List.length ds).
Proof.
  intros Hall. unfold padStart. repeat split.
  - rewrite forallb_app, Hall, andb_true_r.
    induction (2 - List.length ds) as [|k IH]; [reflexivity|exact IH].
  - apply decimal_leading_zeros.
  - rewrite length_app, repeat_length. lia.
Qed.

(** X4. For a time between 0 and 2^53 seconds, [formatTime] writes the
    minutes on at least two digits (exactly two below 100 minutes), a
    colon, and the seconds on exactly two digits; the seconds shown are
    below 60, and sixty times the minutes shown plus the seconds shown
    is the time given. *)
Theorem formatTime_minutes_and_seconds (seconds : Z) :
  (0 <= seconds <= two53)%Z ->
  exists mm ss : jsstring,
    formatTime seconds = mm ++ 58%N :: ss /\
    forallb is_digit mm = true /\ forallb is_digit ss = true /\
    2 <= List.length mm /\ List.length ss = 2 /\
    ((seconds < 6000)%Z -> List.length mm = 2) /\
    (decimal ss < 60)%Z /\
    (60 * decimal mm + decimal ss)%Z = seconds.
Proof.
  intros [Hpos _]. unfold formatTime.
  assert (Hm : (0 <= seconds / 60)%Z) by (apply Z.div_pos; lia).
  assert (Hs : (0 <= Z.rem seconds 60 < 60)%Z)
    by (apply Z.rem_bound_pos; lia).
  assert (Hnum : forall z, (0 <= z)%Z ->
                           number_toString z = natural_toString (Z.to_N z)).
  { intros z Hz. destruct z; try reflexivity. lia. }
  rewrite !Hnum by lia.
  destruct (natural_toString_spec (Z.to_N (seconds / 60)))
    as (Hm1 & Hm2 & Hm3 & Hm4).
  destruct (natural_toString_spec (Z.to_N (Z.rem seconds 60)))
    as (Hs1 & Hs2 & Hs3 & Hs4).
  destruct (padStart_digits _ Hm1) as (Hpm1 & Hpm2 & Hpm3).
  destruct (padStart_digits _ Hs1) as (Hps1 & Hps2 & Hps3).
  eexists _, _. split; [reflexivity|].
  repeat split; try assumption.
  - lia.
  - assert (Z.to_N (Z.rem seconds 60) < 100)%N by lia. specialize (Hs4 H). lia.
  - intros Hlt.
    assert (seconds / 60 < 100)%Z by (apply Z.div_lt_upper_bound; lia).
    assert (Z.to_N (seconds / 60) < 100)%N by lia. specialize (Hm4 H0). lia.
  - rewrite Hps2, Hs2. lia.
  - rewrite Hpm2, Hps2, Hm2, Hs2, !Z2N.id by lia.
    rewrite Z.rem_mod_nonneg by lia.
    pose proof (Z.div_mod seconds 60). lia.
Qed.

Lemma formatTime_minutes_and_seconds_witness :
  (0 <= 125 <= two53)%Z /\
  exists mm ss : jsstring,
    formatTime 125 = mm ++ 58%N :: ss /\
    forallb is_digit mm = true /\ forallb is_digit ss = true /\
    2 <= List.length mm /\ List.length ss = 2 /\
    ((125 < 6000)%Z -> List.length mm = 2) /\
    (decimal ss < 60)%Z /\
    (60 * decimal mm + decimal ss)%Z = 125%Z.
Proof.
  assert (Hrange : (0 <= 125 <= two53)%Z) by (vm_compute; split; congruence).
  split; [exact Hrange|].
  exact (@formatTime_minutes_and_seconds 125 Hrange).
Defined.

Example formatTime_two_minutes_five : formatTime 125 = str "02:05".
Proof. reflexivity. Qed.

Example formatTime_two_hours : formatTime 7200 = str "120:00".
Proof. reflexivity. Qed.

(* ================================================================== *)
(** * Further properties of the instruction renderer *)
(* ================================================================== *)

Section RendererFacts.

Variable text : jsstring.

(** A fragment returned by the renderer is an annotation of the text. *)
Lemma renderInstructionText_Fragment (parts : list Part) :
  renderInstructionText text = Some (Fragment parts) ->
  parts <> [] /\ annotated text 0 parts /\
  List.concat (map part_text parts) = text.
Proof.
  intros Hrun. destruct (render_parts_total text) as (ps & Hps & Hann & Hcat).
  unfold renderInstructionText in Hrun. rewrite Hps in Hrun.
  destruct ps as [|part ps]; [discriminate|].
  injection Hrun as <-. repeat split; [discriminate|exact Hann|exact Hcat].
Qed.

Lemma time_phrase_bounds (i j : nat) (lo : jsstring) (mult : Z) :
  time_phrase text i j lo mult -> i < j /\ j <= List.length text.
Proof.
  intros (a & b & c0 & ? & ? & ? & ? & ? & _). lia.
Qed.

Lemma button_keys_app (ps qs : list Part) :
  button_keys (ps ++ qs) = button_keys ps ++ button_keys qs.
Proof.
  induction ps as [|[s|key seconds label] ps IH]; cbn; [reflexivity|exact IH|].
  now rewrite IH.
Qed.

Lemma button_keys_text_between (p i : nat) :
  button_keys (text_between text p i) = [].
Proof. unfold text_between. now destruct (p <? i). Qed.

Lemma annotated_keys (p : nat) (parts : list Part) :
  annotated text p parts ->
  StronglySorted lt (button_keys parts) /\
  Forall (fun key => p <= key) (button_keys parts).
Proof.
  induction 1 as [p Hnone|p i j lo mult rest Hpi Hph Hfirst Hrest [IHs IHf]].
  - unfold text_after. destruct (p <? List.length text); cbn; split; constructor.
  - apply time_phrase_bounds in Hph.
    rewrite button_keys_app, button_keys_text_between. cbn [app].
    assert (Hrest_from : Forall (fun key => i < key) (button_keys rest)).
    { eapply Forall_impl; [|exact IHf]. cbn. intros; lia. }
    assert (Hrest_p : Forall (fun key => p <= key) (button_keys rest)).
    { eapply Forall_impl; [|exact IHf]. cbn. intros; lia. }
    unfold phrase_part. destruct (0 <? decimal lo)%Z; cbn.
    + split; constructor; assumption.
    + split; assumption.
Qed.

Lemma annotated_nonempty (p : nat) (parts : list Part) :
  annotated text p parts ->
  p <= List.length text ->
  Forall (fun part => part_text part <> []) parts.
Proof.
  induction 1 as [p Hnone|p i j lo mult rest Hpi Hph Hfirst Hrest IH];
    intros Hp.
  - unfold text_after. destruct (Nat.ltb_spec p (List.length text));
      constructor; [|constructor].
    cbn. unfold substring_from. intros E.
    apply (f_equal (@List.length N)) in E. rewrite length_skipn in E.
    cbn in E. lia.
  - pose proof (time_phrase_bounds Hph) as [Hij Hj].
    apply Forall_app. split.
    + unfold text_between. destruct (Nat.ltb_spec p i);
        constructor; [|constructor].
      cbn. intros E. apply (f_equal (@List.length N)) in E.
      rewrite substring_length in E by lia. cbn in E. lia.
    + constructor; [|apply IH; lia].
      rewrite part_text_phrase_part. intros E.
      apply (f_equal (@List.length N)) in E.
      rewrite substring_length in E by lia. cbn in E. lia.
Qed.

End RendererFacts.

(** X5. The keys given to the timer buttons of one instruction (the
    index of each match) are strictly increasing from left to right, so
    no two buttons share a key. *)
Theorem button_keys_increasing (text : jsstring) (parts : list Part) :
  renderInstructionText text = Some (Fragment parts) ->
  StronglySorted lt (button_keys parts) /\ NoDup (button_keys parts).
Proof.
  intros Hrun. apply renderInstructionText_Fragment in Hrun.
  destruct Hrun as (_ & Hann & _).
  apply annotated_keys in Hann. destruct Hann as [Hsorted _].
  split; [exact Hsorted|].
  induction Hsorted as [|key keys Hs IH Hall]; constructor; [|exact IH].
  intros Hin. rewrite Forall_forall in Hall. specialize (Hall _ Hin). lia.
Qed.

Lemma button_keys_increasing_witness :
  let text := str "Boil 5 min, then 10 min" in
  let parts := [Text (str "Boil "); TimerButton 5 (Num 300) (str "5 min");
                Text (str ", then "); TimerButton 17 (Num 600) (str "10 min")] in
  renderInstructionText text = Some (Fragment parts) /\
  NoDup (button_keys parts).
Proof.
  cbn zeta. split; [reflexivity|].
  refine (proj2 (@button_keys_increasing (str "Boil 5 min, then 10 min") _ _)).
  reflexivity.
Defined.

(** X6. The renderer returns the bare text exactly for the empty text;
    for any other text it returns a fragment with at least one part, and
    no part of a fragment is empty. *)
Theorem rendered_parts_are_not_empty (text : jsstring) :
  (text = [] -> renderInstructionText text = Some (Plain [])) /\
  (text <> [] ->
   exists parts : list Part,
     renderInstructionText text = Some (Fragment parts) /\
     parts <> [] /\
     Forall (fun part => part_text part <> []) parts).
Proof.
  split.
  - intros ->. reflexivity.
  - intros Hne.
    destruct (render_parts_total text) as (ps & Hps & Hann & Hcat).
    exists ps.
    assert (Hps_ne : ps <> []).
    { intros ->. cbn in Hcat. congruence. }
    repeat split.
    + unfold renderInstructionText. rewrite Hps.
      destruct ps; [congruence|reflexivity].
    + exact Hps_ne.
    + apply (annotated_nonempty Hann). lia.
Qed.

(** X7. An instruction without any digit is returned as a single plain
    part holding the whole text: no button is made. *)
Theorem text_without_digit_is_plain (text : jsstring) :
  text <> [] ->
  forallb (fun c => negb (is_digit c)) text = true ->
  renderInstructionText text = Some (Fragment [Text text]).
Proof.
  intros Hne Hnodigit.
  destruct (render_parts_total text) as (ps & Hps & Hann & _).
  assert (Hnone : forall i j lo mult, ~ time_phrase text i j lo mult).
  { intros i j lo mult (a & b & c0 & Hia & Hab & Hbc & Hcj & Hj & -> & Hlo & _).
    destruct (nth_error text i) as [ch|] eqn:Hch.
    2:{ apply nth_error_None in Hch. lia. }
    rewrite (substring_cons _ Hch) in Hlo by lia. cbn [forallb] in Hlo.
    apply andb_true_iff in Hlo. destruct Hlo as [Hdigit _].
    rewrite forallb_forall in Hnodigit.
    specialize (Hnodigit ch (nth_error_In _ _ Hch)).
    rewrite Hdigit in Hnodigit. discriminate. }
  assert (Hps_eq : ps = [Text text]).
  { inversion Hann as [p Hrest Hp Hparts|p i j lo mult rest Hpi Hph]; subst.
    - unfold text_after. destruct (Nat.ltb_spec 0 (List.length text)).
      + reflexivity.
      + destruct text; [congruence|cbn in *; lia].
    - exfalso. exact (Hnone _ _ _ _ Hph). }
  unfold renderInstructionText. rewrite Hps, Hps_eq. reflexivity.
Qed.

Lemma text_without_digit_is_plain_witness :
  let text := str "Season to taste for a few minutes." in
  (text <> [] /\ forallb (fun c => negb (is_digit c)) text = true) /\
  renderInstructionText text = Some (Fragment [Text text]).
Proof.
  cbn zeta. split; [split; [discriminate|reflexivity]|].
  apply text_without_digit_is_plain; [discriminate|reflexivity].
Defined.



Lemma rendered_parts_are_not_empty_witness :
  let text := str "Wait 0 mins" in
  text <> [] /\
  exists parts : list Part,
    renderInstructionText text = Some (Fragment parts) /\
    parts <> [] /\
    Forall (fun part => part_text part <> []) parts.
Proof.
  cbn zeta. split; [discriminate|].
  apply (proj2 (rendered_parts_are_not_empty (str "Wait 0 mins"))).
  discriminate.
Defined.

(* ================================================================== *)
(** * Further properties of trimming *)
(* ================================================================== *)

Lemma trimStart_starts_clean (s : jsstring) : starts_clean (trimStart s).
Proof.
  destruct (trimStart s) as [|c r] eqn:Hs; [exact I|].
  cbn. exact (trimStart_head _ Hs).
Qed.

Lemma trimStart_clean (s : jsstring) : starts_clean s -> trimStart s = s.
Proof.
  destruct s as [|c s]; [reflexivity|]. cbn. now intros ->.
Qed.

(** [trimStart] only drops a run of white space in front. *)
Lemma trimStart_suffix (s : jsstring) :
  exists w : jsstring, s = w ++ trimStart s /\ forallb is_space w = true.
Proof.
  induction s as [|c s (w & Hs & Hw)]; [now exists []|].
  cbn [trimStart]. destruct (is_space c) eqn:Hc.
  - exists (c :: w). cbn. rewrite Hc, Hw. split; [now f_equal|reflexivity].
  - now exists [].
Qed.

Lemma trimEnd_prefix (s : jsstring) :
  exists w : jsstring, s = trimEnd s ++ w /\ forallb is_space w = true.
Proof.
  destruct (trimStart_suffix (rev s)) as (w & Hs & Hw).
  exists (rev w). split.
  - unfold trimEnd. rewrite <- rev_app_distr, <- Hs. symmetry. apply rev_involutive.
  - now rewrite forallb_rev.
Qed.

Lemma trimEnd_starts_clean (s : jsstring) :
  starts_clean s -> starts_clean (trimEnd s).
Proof.
  intros Hclean. destruct (trimEnd_prefix s) as (w & Hs & _).
  destruct (trimEnd s) as [|c r]; [exact I|].
  rewrite Hs in Hclean. exact Hclean.
Qed.

(** Trimming a trimmed string changes nothing, and a trimmed string
    neither starts nor ends with white space. *)
Lemma trim_trim (s : jsstring) :
  trim (trim s) = trim s /\
  starts_clean (trim s) /\ starts_clean (rev (trim s)).
Proof.
  assert (Hfront : starts_clean (trim s)).
  { unfold trim. apply trimEnd_starts_clean, trimStart_starts_clean. }
  assert (Hback : starts_clean (rev (trim s))).
  { unfold trim, trimEnd. rewrite rev_involutive. apply trimStart_starts_clean. }
  repeat split; try assumption.
  unfold trim at 1. rewrite (trimStart_clean _ Hfront).
  unfold trimEnd. rewrite (trimStart_clean _ Hback). apply rev_involutive.
Qed.

(** ** The text handed to [JSON.parse] *)

(** X9. Whatever the response holds, the text the two service functions
    hand to [JSON.parse] is never empty and carries no white space at
    either end; it is the response text with the white space around it
    removed whenever that leaves something. *)
Theorem jsonText_is_trimmed_and_not_empty (response : GenerateContentResponse) :
  jsonText_of response <> [] /\
  trim (jsonText_of response) = jsonText_of response /\
  starts_clean (jsonText_of response) /\
  starts_clean (rev (jsonText_of response)) /\
  (forall t, text response = Some t -> forallb is_space t = false ->
             jsonText_of response = trim t).
Proof.
  unfold jsonText_of.
  destruct (text response) as [t|].
  - rewrite truthy_trim. destruct (forallb is_space t) eqn:Hb; cbn [negb].
    + repeat split; try reflexivity; try discriminate.
      intros t' E H. injection E as <-. congruence.
    + destruct (trim_trim t) as (Hidem & Hfront & Hback).
      repeat split; try assumption.
      * intros E. apply trim_nil in E. congruence.
      * intros t' E _. now injection E as <-.
  - repeat split; try reflexivity; discriminate.
Qed.

Lemma jsonText_is_trimmed_and_not_empty_witness :
  let response := mkResponse (Some (str "  [] ")) in
  (text response = Some (str "  [] ") /\
   forallb is_space (str "  [] ") = false) /\
  jsonText_of response = trim (str "  [] ").
Proof.
  cbn zeta. split; [split; reflexivity|].
  apply (proj2 (proj2 (proj2 (proj2
    (jsonText_is_trimmed_and_not_empty (mkResponse (Some (str "  [] "))))))));
    reflexivity.
Defined.

(* ================================================================== *)
(** * Further properties of the session *)
(* ================================================================== *)

(** ** Removing an image or an ingredient *)

Lemma filter_index_past {A : Type} (index : nat) (l : list A) :
  forall k : nat,
    index < k -> filter_index (fun _ i => negb (i =? index)) k l = l.
Proof.
  induction l as [|x l IH]; intros k Hk; cbn; [reflexivity|].
  destruct (Nat.eqb_spec k index); [lia|]. cbn. now rewrite IH by lia.
Qed.

Lemma filter_index_remove_at {A : Type} (index : nat) (l : list A) :
  forall k : nat,
    k <= index ->
    filter_index (fun _ i => negb (i =? index)) k l = App.remove_at (index - k) l.
Proof.
  induction l as [|x l IH]; intros k Hk; cbn [filter_index].
  - now destruct (index - k).
  - destruct (Nat.eqb_spec k index) as [->|Hne]; cbn [negb].
    + rewrite Nat.sub_diag. cbn. apply filter_index_past. lia.
    + replace (index - k) with (S (index - S k)) by lia. cbn.
      now rewrite IH by lia.
Qed.

Lemma remove_at_nth_error {A : Type} (l : list A) :
  forall index k : nat,
    nth_error (App.remove_at index l) k
    = if k <? index then nth_error l k else nth_error l (S k).
Proof.
  induction l as [|x l IH]; intros index k.
  - replace (App.remove_at index (@nil A)) with (@nil A) by (now destruct index).
    rewrite !nth_error_nil. now destruct (k <? index).
  - destruct index as [|index]; cbn [App.remove_at]; [reflexivity|].
    destruct k as [|k]; [reflexivity|]. cbn [nth_error].
    rewrite IH. reflexivity.
Qed.

Lemma remove_at_length {A : Type} (l : list A) :
  forall index : nat,
    List.length (App.remove_at index l)
    = if index <? List.length l then List.length l - 1 else List.length l.
Proof.
  induction l as [|x l IH]; intros index; [now destruct index|].
  destruct index as [|index]; cbn [App.remove_at List.length].
  - cbn. lia.
  - rewrite IH. change (S index <? S (List.length l))
      with (index <? List.length l).
    destruct (Nat.ltb_spec index (List.length l)); lia.
Qed.

(** X10. [removeImage] and [removeIngredient] keep exactly the elements
    whose position differs from the index given: the elements before
    it stay where they are, those after it move up by one, the list gets
    shorter by one, and an index past the end leaves the list as it is;
    nothing else of the session changes. *)
Theorem remove_drops_one_position (index : nat) (s : App.State) :
  let kept := fun (_ : jsstring) (i : nat) => negb (i =? index) in
  App.images (App.removeImage index s) = filter_index kept 0 (App.images s) /\
  (forall k, nth_error (App.images (App.removeImage index s)) k
             = if k <? index then nth_error (App.images s) k
               else nth_error (App.images s) (S k)) /\
  List.length (App.images (App.removeImage index s))
  = (if index <? List.length (App.images s)
     then List.length (App.images s) - 1 else List.length (App.images s)) /\
  (List.length (App.images s) <= index -> App.removeImage index s = s) /\
  App.removeImage index s = App.setImages (App.images (App.removeImage index s)) s /\
  (forall k, nth_error (App.ingredients (App.removeIngredient index s)) k
             = if k <? index then nth_error (App.ingredients s) k
               else nth_error (App.ingredients s) (S k)) /\
  List.length (App.ingredients (App.removeIngredient index s))
  = (if index <? List.length (App.ingredients s)
     then List.length (App.ingredients s) - 1
     else List.length (App.ingredients s)) /\
  App.removeIngredient index s
  = App.setIngredients (App.ingredients (App.removeIngredient index s)) s.
Proof.
  cbn zeta. unfold App.removeImage, App.removeIngredient.
  cbn [App.images App.ingredients App.setImages App.setIngredients].
  repeat split.
  - rewrite filter_index_remove_at by lia. now rewrite Nat.sub_0_r.
  - apply remove_at_nth_error.
  - apply remove_at_length.
  - intros Hlen.
    assert (E : App.remove_at index (App.images s) = App.images s).
    { apply nth_error_ext. intros k. rewrite remove_at_nth_error.
      destruct (Nat.ltb_spec k index); [reflexivity|].
      transitivity (@None jsstring); [|symmetry]; apply nth_error_None; lia. }
    rewrite E. now destruct s.
  - apply remove_at_nth_error.
  - apply remove_at_length.
Qed.

Lemma remove_drops_one_position_witness :
  let s := App.setImages [str "a"; str "b"; str "c"] App.initial in
  List.length (App.images s) <= 7 /\ App.removeImage 7 s = s.
Proof.
  cbn zeta. split; [cbn; lia|].
  apply (proj1 (proj2 (proj2 (proj2
    (remove_drops_one_position 7
       (App.setImages [str "a"; str "b"; str "c"] App.initial)))))).
  cbn. lia.
Defined.

(** ** Invariants of the session *)

Section SessionFacts.

Variable parse_ingredients : jsstring -> result (list Ingredient).
Variable parse_recipes : jsstring -> result (list Recipe).

Lemma staged_invariant_reachable (s : App.State) :
  App.reachable parse_ingredients parse_recipes s -> staged_invariant s.
Proof.
  induction 1 as [|s s' e Hreach IH Hstep].
  - exact I.
  - destruct Hstep as [s e Hen].
    unfold staged_invariant in *. unfold App.enabled in Hen.
    destruct e; cbn [App.handle]; unfold App.reader_onerror;
      destruct (App.loadingState s) eqn:Hl; cbn in Hen; try discriminate;
      lazymatch goal with
      | |- context [App.handleStartCamera_settled ?g _] =>
          (destruct g; cbn; rewrite ?Hl; first [exact I|exact IH])
      | |- context [App.handleCaptureImage ?f _] =>
          (destruct f; cbn; rewrite ?Hl; exact I)
      | |- context [App.handleAnalyze_begin _] =>
          (unfold App.handleAnalyze_begin;
          destruct (App.images s) eqn:Hi; [discriminate|];
          cbn; rewrite Hi; discriminate)
      | |- context [App.handleAnalyze_settled ?r _] =>
          (unfold App.handleAnalyze_settled;
          destruct r as [[|x l]|err]; cbn; exact I)
      | |- context [App.addIngredient _] =>
          (unfold App.addIngredient;
          destruct (truthy (trim (App.newIngredientInput s)));
          cbn; rewrite ?Hl; exact I)
      | |- context [App.handleGenerateRecipes_begin _] =>
          (cbn; destruct (App.ingredients s); [discriminate|discriminate])
      | |- context [App.handleGenerateRecipes_settled ?r _] =>
          (unfold App.handleGenerateRecipes_settled;
          destruct r; cbn; exact I)
      | |- context [App.reader_onload _ _] =>
          (cbn; rewrite ?Hl;
          first [exact I|exact IH
                |intros E; apply app_eq_nil in E; destruct E; discriminate])
      | |- context [if ?accepted then App.setDeferredPrompt false _ else _] =>
          (destruct accepted; cbn; rewrite ?Hl; first [exact I|exact IH])
      | |- _ =>
          (cbn; rewrite ?Hl; first [exact I|exact IH])
      end.
Qed.

End SessionFacts.

(** X12. While the session is analyzing, at least one image is staged,
    and while it is fetching recipes, at least one ingredient is listed:
    the scan is offered only with an image, the generation only with an
    ingredient, and nothing can empty either list while the call is
    awaited on its own screen. *)
Theorem staged_images_and_ingredients
        (parse_ingredients : jsstring -> result (list Ingredient))
        (parse_recipes : jsstring -> result (list Recipe))
        (s : App.State) :
  App.reachable parse_ingredients parse_recipes s ->
  (App.loadingState s = ANALYZING -> App.images s <> []) /\
  (App.loadingState s = FETCHING_RECIPES -> App.ingredients s <> []).
Proof.
  intros Hreach.
  pose proof (staged_invariant_reachable Hreach) as Hinv.
  unfold staged_invariant in Hinv.
  split; intros Hl; rewrite Hl in Hinv; exact Hinv.
Qed.

Lemma staged_images_and_ingredients_witness :
  let s := App.handleAnalyze_begin
             (App.reader_onload (str "data:image/png;base64,AA==") App.initial) in
  (App.reachable parse_empty_array parse_empty_array s /\
   App.loadingState s = ANALYZING) /\
  App.images s <> [].
Proof.
  cbn zeta.
  set (s1 := App.reader_onload (str "data:image/png;base64,AA==") App.initial).
  assert (Hreach : App.reachable (@parse_empty_array Ingredient)
                     (@parse_empty_array Recipe) (App.handleAnalyze_begin s1)).
  { apply (@App.reachable_step _ _ s1 _ App.Analyze).
    - apply (@App.reachable_step _ _ App.initial _
               (App.ReaderLoad (str "data:image/png;base64,AA=="))).
      + apply App.reachable_initial.
      + apply (@App.step_event _ _ App.initial
                 (App.ReaderLoad (str "data:image/png;base64,AA=="))).
        reflexivity.
    - apply (@App.step_event _ _ s1 App.Analyze). reflexivity. }
  split; [split; [exact Hreach|reflexivity]|].
  apply (proj1 (staged_images_and_ingredients Hreach)).
  reflexivity.
Defined.

(** X13. After a failure the session can only be taken up again from
    the start screen.  When the identification fails, or finds nothing,
    while the session is analyzing, the staged images are kept and "Scan
    Ingredients" is offered again at once.  When the recipe generation
    fails, images and ingredients are kept as well, but "Generate
    Recipes" is not offered on the error screen, and "Scan Ingredients"
    is offered exactly when an image is staged. *)
Theorem after_a_failure_scan_again
        (parse_ingredients : jsstring -> result (list Ingredient))
        (parse_recipes : jsstring -> result (list Recipe))
        (s : App.State) (generateContent : result GenerateContentResponse) :
  App.reachable parse_ingredients parse_recipes s ->
  (App.loadingState s = ANALYZING ->
   let s' := App.handle parse_ingredients parse_recipes
                        (App.AnalyzeSettled generateContent) s in
   App.loadingState s' = ERROR ->
   App.images s' = App.images s /\
   App.enabled s' App.Analyze = true /\
   App.loadingState (App.handleAnalyze_begin s') = ANALYZING) /\
  (let s' := App.handle parse_ingredients parse_recipes
                        (App.GenerateSettled generateContent) s in
   App.loadingState s' = ERROR ->
   App.images s' = App.images s /\
   App.ingredients s' = App.ingredients s /\
   App.enabled s' App.GenerateRecipes = false /\
   App.enabled s' App.Analyze = App.nonempty (App.images s)).
Proof.
  intros Hreach.
  pose proof (staged_invariant_reachable Hreach) as Hi.
  unfold staged_invariant in Hi.
  split; [intros Hl; rewrite Hl in Hi|]; cbn zeta; cbn [App.handle].
  - unfold App.handleAnalyze_settled.
    destruct (identifyIngredientsFromImage parse_ingredients generateContent)
      as [[|x l]|err]; cbn; try discriminate; intros _;
      unfold App.handleAnalyze_begin; cbn;
      destruct (App.images s); [congruence|auto|congruence|auto].
  - unfold App.handleGenerateRecipes_settled.
    destruct (fetchRecipesFromIngredients parse_recipes generateContent)
      as [rs|err]; cbn; try discriminate; intros _.
    repeat split.
Qed.

Lemma after_a_failure_scan_again_witness :
  let s := App.handleAnalyze_begin
             (App.reader_onload (str "data:image/png;base64,AA==") App.initial) in
  let s' := App.handle parse_empty_array parse_empty_array
              (App.AnalyzeSettled (Thrown OtherValue)) s in
  (App.reachable parse_empty_array parse_empty_array s /\
   App.loadingState s = ANALYZING /\ App.loadingState s' = ERROR) /\
  App.enabled s' App.Analyze = true.
Proof.
  cbn zeta.
  set (s1 := App.reader_onload (str "data:image/png;base64,AA==") App.initial).
  assert (Hreach : App.reachable (@parse_empty_array Ingredient)
                     (@parse_empty_array Recipe) (App.handleAnalyze_begin s1)).
  { apply (@App.reachable_step _ _ s1 _ App.Analyze).
    - apply (@App.reachable_step _ _ App.initial _
               (App.ReaderLoad (str "data:image/png;base64,AA=="))).
      + apply App.reachable_initial.
      + apply (@App.step_event _ _ App.initial
                 (App.ReaderLoad (str "data:image/png;base64,AA=="))).
        reflexivity.
    - apply (@App.step_event _ _ s1 App.Analyze). reflexivity. }
  split; [split; [exact Hreach|split; reflexivity]|].
  apply (proj1 (@after_a_failure_scan_again _ _ _ (Thrown OtherValue) Hreach));
    reflexivity.
Defined.

(** ** Adding an ingredient by hand *)

Lemma remove_at_last {A : Type} (l : list A) (x : A) :
  App.remove_at (List.length l) (l ++ [x]) = l.
Proof.
  induction l as [|y l IH]; [reflexivity|]. cbn. now rewrite IH.
Qed.

(** X14. An ingredient typed in is stored under its trimmed name, which
    is not empty and neither starts nor ends with white space, and with
    an empty quantity; removing the entry just added gives the previous
    list back; and asking to add again straight away adds nothing, the
    input having been cleared. *)
Theorem addIngredient_stores_a_clean_name (s : App.State) :
  forallb is_space (App.newIngredientInput s) = false ->
  let added := mkIngredient (trim (App.newIngredientInput s)) [] in
  App.ingredients (App.addIngredient s) = App.ingredients s ++ [added] /\
  name added <> [] /\
  trim (name added) = name added /\
  starts_clean (name added) /\ starts_clean (rev (name added)) /\
  App.ingredients
    (App.removeIngredient (List.length (App.ingredients s)) (App.addIngredient s))
  = App.ingredients s /\
  App.addIngredient (App.addIngredient s) = App.addIngredient s.
Proof.
  intros Hb. cbn zeta. cbn [name].
  destruct (trim_trim (App.newIngredientInput s)) as (Hidem & Hfront & Hback).
  assert (Hadd : App.addIngredient s
                 = App.setNewIngredientInput []
                     (App.setIngredients
                        (App.ingredients s
                           ++ [mkIngredient (trim (App.newIngredientInput s)) []])
                        s)).
  { unfold App.addIngredient. now rewrite truthy_trim, Hb. }
  rewrite Hadd. cbn [App.ingredients App.setNewIngredientInput App.setIngredients].
  repeat split; try assumption.
  - intros E. apply trim_nil in E. congruence.
  - unfold App.removeIngredient. cbn. apply remove_at_last.
Qed.

Lemma addIngredient_stores_a_clean_name_witness :
  let s := App.setNewIngredientInput (str "  olive oil ") App.initial in
  forallb is_space (App.newIngredientInput s) = false /\
  App.ingredients (App.addIngredient s) = [mkIngredient (str "olive oil") []].
Proof.
  cbn zeta. split; [reflexivity|].
  exact (proj1 (@addIngredient_stores_a_clean_name
                  (App.setNewIngredientInput (str "  olive oil ") App.initial)
                  eq_refl)).
Defined.

(** ** The image data sent for identification *)

Lemma split_no_separator (sep : N) (s : jsstring) :
  forallb (fun c => negb (c =? sep)%N) s = true -> split sep s = [s].
Proof.
  induction s as [|c s IH]; cbn; [reflexivity|].
  intros H. apply andb_true_iff in H. destruct H as [Hc Hs].
  apply negb_true_iff in Hc. now rewrite Hc, IH.
Qed.

Lemma split_at_separator (sep : N) (header rest : jsstring) :
  forallb (fun c => negb (c =? sep)%N) header = true ->
  split sep (header ++ sep :: rest) = header :: split sep rest.
Proof.
  induction header as [|c header IH]; cbn [app forallb split].
  - intros _. now rewrite N.eqb_refl.
  - intros H. apply andb_true_iff in H. destruct H as [Hc Hs].
    apply negb_true_iff in Hc. now rewrite Hc, IH.
Qed.

(** X15. From a data URL, a header without comma followed by a comma
    and the base64 data (which holds no comma), [handleAnalyze] sends
    exactly the data; from a string without any comma it has nothing to
    send (undefined). *)
Theorem base64_of_data_url (header payload : jsstring) :
  forallb (fun c => negb (c =? 44)%N) header = true ->
  forallb (fun c => negb (c =? 44)%N) payload = true ->
  base64_of (header ++ 44%N :: payload) = Some payload /\
  base64_of header = None.
Proof.
  intros Hh Hp. unfold base64_of.
  rewrite split_at_separator by exact Hh.
  rewrite !split_no_separator by assumption.
  split; reflexivity.
Qed.

Lemma base64_of_data_url_witness :
  (forallb (fun c => negb (c =? 44)%N) (str "data:image/jpeg;base64") = true /\
   forallb (fun c => negb (c =? 44)%N) (str "/9j/4AAQ") = true) /\
  base64_of (str "data:image/jpeg;base64,/9j/4AAQ") = Some (str "/9j/4AAQ").
Proof.
  split; [split; reflexivity|].
  apply (proj1 (@base64_of_data_url (str "data:image/jpeg;base64")
                  (str "/9j/4AAQ") eq_refl eq_refl)).
Defined.

(** ** The prompt for the recipes *)

Lemma occurs_in_refl (s : jsstring) : occurs_in s s.
Proof. exists [], []. now rewrite app_nil_r. Qed.

Lemma occurs_in_app_l (s t u : jsstring) :
  occurs_in s t -> occurs_in s (t ++ u).
Proof.
  intros (before & after & ->). exists before, (after ++ u).
  now rewrite <- !app_assoc.
Qed.

Lemma occurs_in_app_r (s t u : jsstring) :
  occurs_in s t -> occurs_in s (u ++ t).
Proof.
  intros (before & after & ->). exists (u ++ before), after.
  now rewrite <- !app_assoc.
Qed.

Lemma occurs_in_trans (s t u : jsstring) :
  occurs_in s t -> occurs_in t u -> occurs_in s u.
Proof.
  intros (b1 & a1 & ->) (b2 & a2 & ->).
  exists (b2 ++ b1), (a1 ++ a2). now rewrite <- !app_assoc.
Qed.

Lemma occurs_in_join (sep piece : jsstring) (pieces : list jsstring) :
  In piece pieces -> occurs_in piece (join sep pieces).
Proof.
  induction pieces as [|p pieces IH]; [contradiction|].
  intros [->|Hin].
  - destruct pieces; [apply occurs_in_refl|].
    cbn [join]. apply occurs_in_app_l, occurs_in_refl.
  - specialize (IH Hin). destruct pieces as [|q pieces]; [contradiction|].
    cbn [join] in *. apply occurs_in_app_r, occurs_in_app_r. exact IH.
Qed.

Lemma name_in_entry (i : Ingredient) : occurs_in (name i) (ingredient_entry i).
Proof.
  unfold ingredient_entry. destruct (truthy (quantity i)).
  - exists (quantity i ++ [32%N]), []. rewrite app_nil_r, <- app_assoc.
    reflexivity.
  - apply occurs_in_refl.
Qed.

(** X16. The prompt sent for the recipes names every ingredient of the
    list, with its quantity in front when it has one and by its name
    alone when it was added by hand (empty quantity); it states the
    number of servings; and it carries the cuisine sentence exactly when
    a cuisine other than "Open" is chosen. *)
Theorem promptText_names_every_ingredient
        (ingredients : list Ingredient) (servings : Z) (cuisine : jsstring)
        (i : Ingredient) :
  In i ingredients ->
  let prompt := promptText ingredients servings cuisine in
  occurs_in (ingredient_entry i) prompt /\
  occurs_in (name i) prompt /\
  (quantity i = [] -> ingredient_entry i = name i) /\
  (quantity i <> [] -> ingredient_entry i = quantity i ++ 32%N :: name i) /\
  occurs_in (number_toString servings) prompt /\
  (cuisine <> [] -> cuisine <> str "Open" ->
   occurs_in (str "align with the '" ++ cuisine ++ str "' cuisine") prompt) /\
  (cuisine = [] \/ cuisine = str "Open" ->
   prompt = promptText ingredients servings []).
Proof.
  intros Hin. cbn zeta.
  assert (Hentry : occurs_in (ingredient_entry i)
                     (promptText ingredients servings cuisine)).
  { unfold promptText. apply occurs_in_app_r, occurs_in_app_l.
    unfold ingredientList. apply occurs_in_join. now apply in_map. }
  repeat split.
  - exact Hentry.
  - eapply occurs_in_trans; [apply name_in_entry|exact Hentry].
  - unfold ingredient_entry. now intros ->.
  - unfold ingredient_entry. destruct (quantity i); [congruence|reflexivity].
  - unfold promptText.
    do 3 apply occurs_in_app_r. apply occurs_in_app_l, occurs_in_refl.
  - intros Hne Hopen. unfold promptText.
    do 5 apply occurs_in_app_r. apply occurs_in_app_l.
    unfold cuisine_sentence.
    assert (Ht : truthy cuisine = true) by (destruct cuisine; [congruence|reflexivity]).
    assert (Hc : jsstring_eqb cuisine (str "Open") = false).
    { unfold jsstring_eqb.
      destruct (list_eq_dec N.eq_dec cuisine (str "Open")); [congruence|reflexivity]. }
    rewrite Ht, Hc. cbn [andb negb].
    exists (str " The recipes must strictly "), (str " or dietary style.").
    rewrite <- !app_assoc. reflexivity.
  - intros [->| ->]; reflexivity.
Qed.

Lemma promptText_names_every_ingredient_witness :
  let eggs := mkIngredient (str "eggs") (str "2") in
  let salt := mkIngredient (str "salt") [] in
  In salt [eggs; salt] /\
  occurs_in (str "salt") (promptText [eggs; salt] 2 (str "Vegan")).
Proof.
  cbn zeta. split; [right; left; reflexivity|].
  apply (proj1 (proj2
    (@promptText_names_every_ingredient
       [mkIngredient (str "eggs") (str "2"); mkIngredient (str "salt") []]
       2 (str "Vegan") (mkIngredient (str "salt") [])
       (or_intror (or_introl eq_refl))))).
Defined.

Example promptText_for_two :
  promptText [mkIngredient (str "eggs") (str "2"); mkIngredient (str "salt") []]
             2 (str "Open")
  = str "Based on the following ingredients: 2 eggs, salt, please provide 3 diverse recipe suggestions for 2 serving(s). For each recipe, include a brief, enticing description, an estimated prep time (e.g. "
      ++ 34%N :: str "30 mins" ++ 34%N
      :: str "), a list of all required ingredients with quantities adjusted for the specified serving size, step-by-step instructions, and an estimated nutritional overview per serving (calories, protein, carbs, fat). Provide the response as a JSON array.".
Proof. reflexivity. Qed.

(* ================================================================== *)
(** * Resetting the timer, and the serving buttons *)
(* ================================================================== *)

(** X17. Whatever state an open timer on a positive duration is in,
    running, paused or finished, the reset button followed by the
    start button puts it in the state it was opened in: the full
    duration, running, not finished. *)
Theorem reset_then_start_reopens (durationSeconds : Z)
        (s : TimerOverlay.TimerState) :
  (0 < durationSeconds)%Z ->
  TimerOverlay.step durationSeconds s TimerOverlay.Reset
  = TimerOverlay.mkTimer durationSeconds false false /\
  TimerOverlay.run durationSeconds s [TimerOverlay.Reset; TimerOverlay.Toggle]
  = TimerOverlay.opened durationSeconds.
Proof.
  intros Hd.
  assert (Hreset : TimerOverlay.step durationSeconds s TimerOverlay.Reset
                   = TimerOverlay.mkTimer durationSeconds false false).
  { unfold TimerOverlay.step, TimerOverlay.rerender, TimerOverlay.effect,
      TimerOverlay.resetTimer. timer_simpl.
    destruct (Z.eqb_spec durationSeconds 0); [lia|].
    destruct ((TimerOverlay.timeLeft s =? durationSeconds)%Z
              && Bool.eqb (TimerOverlay.isActive s) false); reflexivity. }
  split; [exact Hreset|].
  rewrite run_cons, Hreset.
  unfold TimerOverlay.run. cbn [fold_left].
  unfold TimerOverlay.step, TimerOverlay.rerender, TimerOverlay.effect,
    TimerOverlay.toggleTimer, TimerOverlay.opened. timer_simpl.
  rewrite andb_false_r.
  destruct (Z.ltb_spec 0 durationSeconds); [reflexivity|lia].
Qed.

Lemma reset_then_start_reopens_witness :
  (0 < 60)%Z /\
  TimerOverlay.run 60 (TimerOverlay.mkTimer 0 false true)
                   [TimerOverlay.Reset; TimerOverlay.Toggle]
  = TimerOverlay.opened 60.
Proof.
  split; [lia|].
  refine (proj2 (@reset_then_start_reopens 60 (TimerOverlay.mkTimer 0 false true) _)).
  lia.
Defined.

Lemma servings_positive_reachable
      (parse_ingredients : jsstring -> result (list Ingredient))
      (parse_recipes : jsstring -> result (list Recipe))
      (s : App.State) :
  App.reachable parse_ingredients parse_recipes s -> (1 <= App.servings s)%Z.
Proof.
  induction 1 as [|s s' e Hreach IH Hstep]; [cbn; lia|].
  destruct Hstep as [s e Hen].
  destruct e; cbn [App.handle]; unfold App.reader_onerror;
    lazymatch goal with
    | |- context [App.handleStartCamera_settled ?g _] => (destruct g; exact IH)
    | |- context [App.handleCaptureImage ?f _] => (destruct f; exact IH)
    | |- context [App.handleAnalyze_begin _] =>
        (unfold App.handleAnalyze_begin; destruct (App.images s); exact IH)
    | |- context [App.handleAnalyze_settled ?r _] =>
        (unfold App.handleAnalyze_settled; destruct r as [[|x l]|err]; exact IH)
    | |- context [App.addIngredient _] =>
        (unfold App.addIngredient;
         destruct (truthy (trim (App.newIngredientInput s))); exact IH)
    | |- context [App.handleGenerateRecipes_settled ?r _] =>
        (unfold App.handleGenerateRecipes_settled; destruct r; exact IH)
    | |- context [if ?accepted then _ else _] => (destruct accepted; exact IH)
    | |- _ => (cbn; first [exact IH|lia])
    end.
Qed.

(** X18. In a reachable state the two serving buttons undo each other
    as far as the floor at 1 allows: decreasing after increasing gives
    the state back, and increasing after decreasing gives it back
    exactly when more than one serving was set; at one serving the
    decrease changes nothing. *)
Theorem serving_buttons_undo_each_other
        (parse_ingredients : jsstring -> result (list Ingredient))
        (parse_recipes : jsstring -> result (list Recipe))
        (s : App.State) :
  App.reachable parse_ingredients parse_recipes s ->
  App.decreaseServings (App.increaseServings s) = s /\
  ((1 < App.servings s)%Z ->
   App.increaseServings (App.decreaseServings s) = s) /\
  (App.servings s = 1%Z ->
   App.decreaseServings s = s /\
   App.servings (App.increaseServings (App.decreaseServings s)) = 2%Z).
Proof.
  intros Hreach. pose proof (servings_positive_reachable Hreach) as Hpos.
  destruct s as [l im ing rc er sv cu dp inp st]. cbn in Hpos.
  unfold App.decreaseServings, App.increaseServings, App.setServings. cbn.
  repeat split.
  - f_equal. lia.
  - intros Hgt. f_equal. lia.
  - f_equal. lia.
  - lia.
Qed.

Lemma serving_buttons_undo_each_other_witness :
  App.reachable parse_empty_array parse_empty_array App.initial /\
  App.decreaseServings (App.increaseServings App.initial) = App.initial.
Proof.
  assert (Hreach : App.reachable (@parse_empty_array Ingredient)
                     (@parse_empty_array Recipe) App.initial)
    by apply App.reachable_initial.
  split; [exact Hreach|].
  exact (proj1 (serving_buttons_undo_each_other Hreach)).
Defined.
